(** * Deprecation notices of [lib/common/api/deprecate.ts]

    A shallow embedding of the deprecation module and the properties its
    specification states about it.

    The module is stateful JavaScript: a module variable
    ([deprecationHandler]), one captured variable [warned] per closure
    made by [warnOnceMessage], the three flags of [process], and the
    objects and emitters it wraps.  All of it is kept in one [World]
    that every operation threads through; an operation returns the new
    world and a completion (a value, or a thrown JavaScript value).

    Conventions of the embedding.
    - Callbacks owned by the embedder (the wrapped functions, the
      original getters and setters, ordinary listeners) are host
      functions: a call is recorded in [effects] and its result is given
      by the function's behaviour.  The custom handler is known by a
      number; a call of it is recorded and returns.  None of them calls
      back into this module.
    - Closures made by this module are first-order data ([WarnOnce],
      [FunctionWrapper], [Getter], [Setter], [Listener]) run by an
      interpreter.
    - Objects are ordinary and extensible, their properties configurable
      and writable; a property is a data slot or an accessor pair.
    - [notices] is ghost state: the messages [log] was called with, in
      order.  It is written by [log] only and read by no operation. *)

From Stdlib Require Import String ZArith List Bool Lia.
From stdpp Require Import base option list gmap strings.

Open Scope string_scope.

(** ** Values and completions *)

Definition loc := nat.

Inductive JsVal :=
| VUndefined
| VNull
| VBool (b : bool)
| VNumber (n : Z)
| VString (s : string)
| VObject (l : loc)
| VError (name message : string).

#[global] Instance JsVal_eq_dec : EqDecision JsVal.
Proof. solve_decision. Defined.

(** [new Error(message)] *)
Definition Error (message : string) : JsVal := VError "Error" message.
Definition TypeError (message : string) : JsVal := VError "TypeError" message.

(** How a call ends: it returns, it throws, or the interpreter ran out of
    depth (JavaScript's unbounded recursion). *)
Inductive Completion (A : Type) :=
| Normal (a : A)
| Throw (e : JsVal)
| Exhausted.
Arguments Normal {A} a.
Arguments Throw {A} e.
Arguments Exhausted {A}.

(** A function of the embedder.  [hf_name] is its [name] property. *)
Record HostFn := mkHostFn {
  hf_id : nat;
  hf_name : string;
  hf_apply : JsVal -> list JsVal -> Completion JsVal
}.

(** ** Closures made by this module *)

(** The closure returned by [warnOnceMessage]: the cell of its captured
    [warned] variable and its captured [msg]. *)
Record WarnOnce := mkWarnOnce { wo_cell : nat; wo_msg : string }.

(** The functions returned by [removeFunction], and by [renameFunction]
    and [moveAPI]. *)
Inductive FunctionWrapper :=
| RemovedFunction (warn : WarnOnce) (fn : HostFn)
| ForwardingFunction (warn : WarnOnce) (fn : HostFn).

(** The accessors installed by [removeProperty] and [renameProperty]. *)
Inductive Getter :=
| HostGetter (f : HostFn)
| RemovedGet (warn : WarnOnce) (info_get : Getter) (object : loc)
| RenamedGet (warn : WarnOnce) (object : loc) (newName : string).

Inductive Setter :=
| HostSetter (f : HostFn)
| RemovedSet (warn : WarnOnce) (onlyForValues : option (list JsVal))
             (info_set : Setter) (object : loc)
| RenamedSet (warn : WarnOnce) (object : loc) (newName : string).

(** A property descriptor: [info.get] and [info.set] are [undefined] on a
    data property and may each be [undefined] on an accessor. *)
Inductive Property :=
| Data (value : JsVal)
| Accessor (get : option Getter) (set : option Setter).

Record Object := mkObject {
  proto : option loc;
  props : gmap string Property
}.

(** The listener registered by [event], next to ordinary listeners. *)
Inductive Listener :=
| HostListener (f : HostFn)
| DeprecatedEvent (warn : WarnOnce) (oldName : string)
                  (transformer : list JsVal -> option (list JsVal)).

(** ** The world *)

Record Process := mkProcess {
  noDeprecation : bool;
  throwDeprecation : bool;
  traceDeprecation : bool
}.

Inductive Effect :=
| HandlerCalled (handler : nat) (message : string)
| ConsoleTrace (message : string)
| ConsoleWarn (line : string)
| HostCalled (f : nat) (this : JsVal) (args : list JsVal).

Record World := mkWorld {
  process : Process;
  deprecationHandler : option nat;
  warned : list bool;
  heap : gmap loc Object;
  listeners : gmap (loc * string) (list Listener);
  effects : list Effect;
  notices : list string
}.

Definition with_process (p : Process) (w : World) : World :=
  mkWorld p (deprecationHandler w) (warned w) (heap w) (listeners w)
          (effects w) (notices w).
Definition with_handler (h : option nat) (w : World) : World :=
  mkWorld (process w) h (warned w) (heap w) (listeners w)
          (effects w) (notices w).
Definition with_warned (l : list bool) (w : World) : World :=
  mkWorld (process w) (deprecationHandler w) l (heap w) (listeners w)
          (effects w) (notices w).
Definition with_heap (h : gmap loc Object) (w : World) : World :=
  mkWorld (process w) (deprecationHandler w) (warned w) h (listeners w)
          (effects w) (notices w).
Definition with_listeners (ls : gmap (loc * string) (list Listener))
    (w : World) : World :=
  mkWorld (process w) (deprecationHandler w) (warned w) (heap w) ls
          (effects w) (notices w).
Definition perform (e : Effect) (w : World) : World :=
  mkWorld (process w) (deprecationHandler w) (warned w) (heap w)
          (listeners w) (effects w ++ [e]) (notices w).
Definition note (message : string) (w : World) : World :=
  mkWorld (process w) (deprecationHandler w) (warned w) (heap w)
          (listeners w) (effects w) (notices w ++ [message]).

(** ** Operations: state passing with exceptions *)

Definition M (A : Type) : Type := World -> World * Completion A.

Definition ret {A} (a : A) : M A := fun w => (w, Normal a).
Definition throw {A} (e : JsVal) : M A := fun w => (w, Throw e).
Definition bind {A B} (m : M A) (k : A -> M B) : M B :=
  fun w =>
    match m w with
    | (w', Normal a) => k a w'
    | (w', Throw e) => (w', Throw e)
    | (w', Exhausted) => (w', Exhausted)
    end.

Declare Scope js_scope.
Delimit Scope js_scope with js.
Notation "'let*' x ':=' m 'in' k" := (bind m (fun x => k))
  (at level 10, x name, m at level 100, k at level 200) : js_scope.
Notation "m ';;;' k" := (bind m (fun _ => k))
  (at level 100, k at level 200, right associativity) : js_scope.
Open Scope js_scope.

(** A call of a host function: recorded, then answered by its behaviour. *)
Definition host_call (f : HostFn) (this : JsVal) (args : list JsVal)
    : M JsVal :=
  fun w => (perform (HostCalled (hf_id f) this args) w, hf_apply f this args).

(** ** The notice sink *)

Definition setHandler (handler : option nat) : M unit :=
  fun w => (with_handler handler w, Normal tt).

Definition getHandler : M (option nat) :=
  fun w => (w, Normal (deprecationHandler w)).

Definition log (message : string) : M unit :=
  fun w =>
    let w := note message w in
    match deprecationHandler w with
    | Some handler => (perform (HandlerCalled handler message) w, Normal tt)
    | None =>
      if throwDeprecation (process w) then (w, Throw (Error message))
      else if traceDeprecation (process w) then
        (perform (ConsoleTrace message) w, Normal tt)
      else (perform (ConsoleWarn ("(electron) " +:+ message)) w, Normal tt)
    end.

Definition warn (oldName newName : string) : M unit :=
  fun w =>
    if negb (noDeprecation (process w)) then
      log ("'" +:+ oldName +:+ "' is deprecated. Use '" +:+ newName
           +:+ "' instead.") w
    else (w, Normal tt).

(** ** The warning deduplicator *)

Definition warned_at (w : World) (c : WarnOnce) : bool :=
  default false (warned w !! wo_cell c).

(** [let warned = false; return () => { ... }] *)
Definition warnOnceMessage (msg : string) : M WarnOnce :=
  fun w =>
    (with_warned (warned w ++ [false]) w,
     Normal (mkWarnOnce (length (warned w)) msg)).

(** The body of the returned closure. *)
Definition fire (c : WarnOnce) : M unit :=
  fun w =>
    if negb (warned_at w c) && negb (noDeprecation (process w)) then
      log (wo_msg c) (with_warned (<[wo_cell c := true]> (warned w)) w)
    else (w, Normal tt).

(** A string is truthy when it is given and not empty. *)
Definition given (s : option string) : option string :=
  match s with
  | Some EmptyString => None
  | _ => s
  end.

Definition warnOnce (oldName : string) (newName : option string)
    : M WarnOnce :=
  warnOnceMessage
    match given newName with
    | Some newName =>
      "'" +:+ oldName +:+ "' is deprecated and will be removed. Please use '"
          +:+ newName +:+ "' instead."
    | None => "'" +:+ oldName +:+ "' is deprecated and will be removed."
    end.

(** ** Functions *)

(** remove a function with no replacement *)
Definition removeFunction (fn : option HostFn) (removedName : string)
    : M FunctionWrapper :=
  match fn with
  | None =>
    throw (Error ("'" +:+ removedName
                  +:+ " function' is invalid or does not exist."))
  | Some fn =>
    let* warn := warnOnce (hf_name fn +:+ " function") None in
    ret (RemovedFunction warn fn)
  end.

(** change the name of a function *)
Definition renameFunction (fn : HostFn) (newName : string)
    : M FunctionWrapper :=
  let* warn := warnOnce (hf_name fn +:+ " function")
                        (Some (newName +:+ " function")) in
  ret (ForwardingFunction warn fn).

Definition moveAPI (fn : HostFn) (oldUsage newUsage : string)
    : M FunctionWrapper :=
  let* warn := warnOnce oldUsage (Some newUsage) in
  ret (ForwardingFunction warn fn).

(** Calling a wrapper with a [this] and [arguments]. *)
Definition call_function (f : FunctionWrapper) (this : JsVal)
    (args : list JsVal) : M JsVal :=
  match f with
  | RemovedFunction warn fn =>
    fire warn ;;; host_call fn this args ;;; ret VUndefined
  | ForwardingFunction warn fn =>
    fire warn ;;; host_call fn this args
  end.

(** A call given as the pair of its [this] and its arguments. *)
Definition invoke (f : FunctionWrapper) (call : JsVal * list JsVal)
    : M JsVal :=
  call_function f (fst call) (snd call).

(** ** Objects and their properties *)

Definition getOwnPropertyDescriptor (h : gmap loc Object) (o : loc)
    (name : string) : option Property :=
  match h !! o with
  | Some obj => props obj !! name
  | None => None
  end.

(** The property found along the prototype chain.  A chain of distinct
    objects is no longer than the heap. *)
Fixpoint find_in_chain (depth : nat) (h : gmap loc Object) (o : loc)
    (name : string) : option Property :=
  match depth with
  | 0 => None
  | S depth =>
    match h !! o with
    | None => None
    | Some obj =>
      match props obj !! name with
      | Some p => Some p
      | None =>
        match proto obj with
        | Some p => find_in_chain depth h p name
        | None => None
        end
      end
    end
  end.

Definition find_property (h : gmap loc Object) (o : loc) (name : string)
    : option Property :=
  find_in_chain (size h) h o name.

(** [name in object] *)
Definition has_property (w : World) (o : loc) (name : string) : bool :=
  bool_decide (is_Some (find_property (heap w) o name)).

(** [Object.defineProperty(object, name, descriptor)] *)
Definition defineProperty (o : loc) (name : string) (p : Property) : M loc :=
  fun w =>
    match heap w !! o with
    | Some obj =>
      (with_heap (<[o := mkObject (proto obj) (<[name := p]> (props obj))]>
                    (heap w)) w,
       Normal o)
    | None =>
      (w, Throw (TypeError "Object.defineProperty called on non-object"))
    end.

Section Accessors.
(** The property reads and writes an accessor body performs, one level
    further down. *)
Variable Get : loc -> string -> M JsVal.
Variable Set_ : loc -> string -> JsVal -> M unit.

Fixpoint call_getter (g : Getter) (this : JsVal) : M JsVal :=
  match g with
  | HostGetter f => host_call f this []
  | RemovedGet warn info_get object =>
    fire warn ;;; call_getter info_get (VObject object)
  | RenamedGet warn object newName =>
    fire warn ;;; Get object newName
  end.

Fixpoint call_setter (s : Setter) (this : JsVal) (newVal : JsVal)
    : M unit :=
  match s with
  | HostSetter f => host_call f this [newVal] ;;; ret tt
  | RemovedSet warn onlyForValues info_set object =>
    (match onlyForValues with
     | Some values =>
       if bool_decide (newVal ∈ values) then fire warn else ret tt
     | None => fire warn
     end) ;;;
    call_setter info_set (VObject object) newVal
  | RenamedSet warn object newName =>
    fire warn ;;; Set_ object newName newVal
  end.
End Accessors.

(** [object[name]] *)
Fixpoint Get (fuel : nat) (o : loc) (name : string) : M JsVal :=
  match fuel with
  | 0 => fun w => (w, Exhausted)
  | S fuel =>
    fun w =>
      match find_property (heap w) o name with
      | Some (Data v) => (w, Normal v)
      | Some (Accessor (Some g) _) => call_getter (Get fuel) g (VObject o) w
      | Some (Accessor None _) | None => (w, Normal VUndefined)
      end
  end.

(** [object[name] = v], in strict mode *)
Fixpoint Set_ (fuel : nat) (o : loc) (name : string) (v : JsVal) : M unit :=
  match fuel with
  | 0 => fun w => (w, Exhausted)
  | S fuel =>
    fun w =>
      match find_property (heap w) o name with
      | Some (Accessor _ (Some s)) =>
        call_setter (Set_ fuel) s (VObject o) v w
      | Some (Accessor _ None) =>
        (w, Throw (TypeError "Cannot set property which has only a getter"))
      | Some (Data _) | None => (defineProperty o name (Data v) ;;; ret tt) w
      end
  end.



(** change the name of a property *)
Definition renameProperty (fuel : nat) (object : loc)
    (oldName newName : string) : M loc :=
  let* warn := warnOnce oldName (Some newName) in
  (fun w =>
     if has_property w object oldName && negb (has_property w object newName)
     then
       (fire warn ;;;
        let* value := Get fuel object oldName in
        Set_ fuel object newName value) w
     else (w, Normal tt)) ;;;
  defineProperty object oldName
    (Accessor (Some (RenamedGet warn object newName))
              (Some (RenamedSet warn object newName))).

(** ** Emitters *)

Definition listeners_of (w : World) (emitter : loc) (name : string)
    : list Listener :=
  default [] (listeners w !! (emitter, name)).

Definition listenerCount (w : World) (emitter : loc) (name : string) : nat :=
  length (listeners_of w emitter name).

(** [emitter.on(name, listener)] *)
Definition on (emitter : loc) (name : string) (l : Listener) : M loc :=
  fun w =>
    (with_listeners
       (<[(emitter, name) := (listeners_of w emitter name ++ [l])%list]>
          (listeners w)) w,
     Normal emitter).

Section Listeners.
(** [this.emit], one level further down. *)
Variable emit : loc -> string -> list JsVal -> M bool.

Definition call_listener (l : Listener) (this : loc) (args : list JsVal)
    : M unit :=
  match l with
  | HostListener f => host_call f (VObject this) args ;;; ret tt
  | DeprecatedEvent warn oldName transformer =>
    fun w =>
      if negb (listenerCount w this oldName =? 0)%nat then
        (fire warn ;;;
         match transformer args with
         | Some transformedArgs =>
           emit this oldName transformedArgs ;;; ret tt
         | None => ret tt
         end) w
      else (w, Normal tt)
  end.

Fixpoint call_listeners (ls : list Listener) (this : loc)
    (args : list JsVal) : M unit :=
  match ls with
  | [] => ret tt
  | l :: ls => call_listener l this args ;;; call_listeners ls this args
  end.
End Listeners.

(** [emitter.emit(name, ...args)]: the listeners registered under [name]
    when the emission starts, in the order of registration. *)
Fixpoint emit (fuel : nat) (emitter : loc) (name : string)
    (args : list JsVal) : M bool :=
  match fuel with
  | 0 => fun w => (w, Exhausted)
  | S fuel =>
    fun w =>
      let ls := listeners_of w emitter name in
      (call_listeners (emit fuel) ls emitter args ;;;
       ret (negb (length ls =? 0)%nat)) w
  end.

(** change the name of an event *)
Definition event (emitter : loc) (oldName newName : string)
    (transformer : option (list JsVal -> option (list JsVal))) : M loc :=
  let* warn :=
    (if String.prefix "-" newName
     then warnOnce (oldName +:+ " event") None
     else warnOnce (oldName +:+ " event") (Some (newName +:+ " event"))) in
  on emitter newName
     (DeprecatedEvent warn oldName
        (default (fun args => Some args) transformer)).

(** What the listener registered by [event] does at one emission. *)
Definition react (fuel : nat) (l : Listener) (emitter : loc)
    (args : list JsVal) : M unit :=
  call_listener (emit fuel) l emitter args.

(** ** Histories *)

(** What the embedder and the host may change between two calls: the
    flags of [process] and, through [setHandler], the handler. *)
Record Env := mkEnv { env_process : Process; env_handler : option nat }.

Definition enter (e : Env) (w : World) : World :=
  with_handler (env_handler e) (with_process (env_process e) w).

(** One call of [act] under each environment in turn.  A call that
    throws ends there; the next call starts from the world it left. *)
Fixpoint calls {A} (act : M A) (envs : list Env) (w : World) : World :=
  match envs with
  | [] => w
  | e :: envs => calls act envs (fst (act (enter e w)))
  end.

(** The same with an argument for each call: [this] and the arguments
    of a function call, the arguments of an emission. *)
Fixpoint calls_with {A B} (act : B -> M A) (steps : list (Env * B))
    (w : World) : World :=
  match steps with
  | [] => w
  | (e, b) :: steps => calls_with act steps (fst (act b (enter e w)))
  end.

Definition suppressed (e : Env) : bool := noDeprecation (env_process e).

(** [log] ends in a throw: no handler, and throw-on-notice set. *)
Definition escalates (w : World) : bool :=
  bool_decide (deprecationHandler w = None) && throwDeprecation (process w).

(** This call of the closure reaches [log]. *)
Definition fires (w : World) (c : WarnOnce) : bool :=
  negb (warned_at w c) && negb (noDeprecation (process w)).


(** ** Sample worlds *)

Definition quiet : Process := mkProcess false false false.
Definition silenced : Process := mkProcess true false false.
Definition throwing : Process := mkProcess false true false.
Definition tracing : Process := mkProcess false false true.

Definition empty_world : World := mkWorld quiet None [] ∅ ∅ [] [].

(** A function named [f] that returns 42. *)
Definition answer : HostFn := mkHostFn 1 "f" (fun _ _ => Normal (VNumber 42)).

(** An ordinary listener, and an emitter at location 0 that has it
    under the event ["old"]. *)
Definition onOld : HostFn := mkHostFn 5 "onOld" (fun _ _ => Normal VUndefined).

Definition emitter_world : World :=
  with_listeners {[ (0, "old") := [HostListener onOld] ]} empty_world.

(** Object 1 inherits from object 0.  In [plain_heap] the prototype has
    ["p"] as a data property and the object has ["old"] as one. *)
Definition plain_heap : gmap loc Object :=
  {[ 0 := mkObject None {[ "p" := Data (VNumber 1) ]};
     1 := mkObject (Some 0) {[ "old" := Data (VNumber 5) ]} ]}.



(** ** Further histories *)

(** The three ways a notice is asked for. *)
Inductive Notice :=
| ByLog (message : string)
| ByWarn (oldName newName : string)
| ByClosure (c : WarnOnce).

Definition notify (n : Notice) : M unit :=
  match n with
  | ByLog message => log message
  | ByWarn oldName newName => warn oldName newName
  | ByClosure c => fire c
  end.

(** Notices asked for one after the other, each under its own flags.
    The handler is whatever the module holds. *)
Fixpoint notices_under (steps : list (Process * Notice)) (w : World)
    : World :=
  match steps with
  | [] => w
  | (p, n) :: steps => notices_under steps (fst (notify n (with_process p w)))
  end.

(** The closure and the function inside a wrapper. *)
Definition wrapper_warn (f : FunctionWrapper) : WarnOnce :=
  match f with
  | RemovedFunction warn _ | ForwardingFunction warn _ => warn
  end.

Definition wrapper_fn (f : FunctionWrapper) : HostFn :=
  match f with
  | RemovedFunction _ fn | ForwardingFunction _ fn => fn
  end.

(** What a wrapper returns once [warn()] has returned. *)
Definition wrapper_result (f : FunctionWrapper) (this : JsVal)
    (args : list JsVal) : Completion JsVal :=
  match f with
  | RemovedFunction _ fn =>
    match hf_apply fn this args with
    | Normal _ => Normal VUndefined
    | Throw e => Throw e
    | Exhausted => Exhausted
    end
  | ForwardingFunction _ fn => hf_apply fn this args
  end.





(** A step of a history can log: it is made while the suppression flag
    is off and it runs the closure. *)
Definition can_log {B} (runs : B -> bool) (s : Env * B) : bool :=
  negb (suppressed (fst s)) && runs (snd s).

(** A property that is missing or a data property: no accessor runs when
    it is read or written. *)
Definition plain (p : option Property) : bool :=
  match p with
  | Some (Accessor _ _) => false
  | Some (Data _) | None => true
  end.


(** * Properties *)

(** ** The notice sink and the deduplicator, step by step *)

(** The four ways [log] can go. *)
Ltac log_cases w :=
  unfold log, escalates; simpl;
  destruct (deprecationHandler w) eqn:?; simpl;
  [|destruct (throwDeprecation (process w)) eqn:?; simpl;
    [|destruct (traceDeprecation (process w)) eqn:?; simpl]];
  rewrite ?app_nil_r.

Lemma log_notices message w :
  notices (fst (log message w)) = (notices w ++ [message])%list.
Proof. by log_cases w. Qed.

Lemma log_frame message w :
  let w' := fst (log message w) in
  process w' = process w /\ deprecationHandler w' = deprecationHandler w /\
  warned w' = warned w /\ heap w' = heap w /\ listeners w' = listeners w.
Proof. by log_cases w. Qed.

Lemma log_completion message w :
  snd (log message w) =
  if escalates w then Throw (Error message) else Normal tt.
Proof. by log_cases w. Qed.

Lemma fire_silent c w : fires w c = false -> fire c w = (w, Normal tt).
Proof. unfold fire, fires. by intros ->. Qed.

Lemma fire_loud c w :
  fires w c = true ->
  fire c w = log (wo_msg c) (with_warned (<[wo_cell c := true]> (warned w)) w).
Proof. unfold fire, fires. by intros ->. Qed.

Lemma fire_notices c w :
  notices (fst (fire c w)) =
  (notices w ++ if fires w c then [wo_msg c] else [])%list.
Proof.
  destruct (fires w c) eqn:E.
  - rewrite fire_loud by done. by rewrite log_notices.
  - rewrite fire_silent by done. simpl. by rewrite app_nil_r.
Qed.

Lemma fire_completion c w :
  snd (fire c w) =
  if fires w c && escalates w then Throw (Error (wo_msg c)) else Normal tt.
Proof.
  destruct (fires w c) eqn:E; simpl.
  - rewrite fire_loud by done. by rewrite log_completion.
  - by rewrite fire_silent.
Qed.

Lemma fire_warned c w :
  warned (fst (fire c w)) =
  if fires w c then <[wo_cell c := true]> (warned w) else warned w.
Proof.
  destruct (fires w c) eqn:E.
  - rewrite fire_loud by done.
    by destruct (log_frame (wo_msg c)
                   (with_warned (<[wo_cell c := true]> (warned w)) w))
      as (_ & _ & -> & _).
  - by rewrite fire_silent.
Qed.

Lemma fire_frame c w :
  let w' := fst (fire c w) in
  process w' = process w /\ deprecationHandler w' = deprecationHandler w /\
  heap w' = heap w /\ listeners w' = listeners w /\
  length (warned w') = length (warned w).
Proof.
  simpl. rewrite fire_warned.
  destruct (fires w c) eqn:E.
  - rewrite fire_loud by done.
    destruct (log_frame (wo_msg c)
                (with_warned (<[wo_cell c := true]> (warned w)) w))
      as (-> & -> & _ & -> & ->).
    by rewrite length_insert.
  - by rewrite fire_silent.
Qed.

(** The cell after a call: it was set already, or this call set it. *)
Lemma fire_warned_at c w :
  wo_cell c < length (warned w) ->
  warned_at (fst (fire c w)) c =
  warned_at w c || negb (noDeprecation (process w)).
Proof.
  intros Hc. unfold warned_at at 1. rewrite fire_warned.
  unfold fires. fold (warned_at w c).
  destruct (warned_at w c) eqn:Hw; simpl; [done|].
  destruct (noDeprecation (process w)); simpl; [done|].
  by rewrite list_lookup_insert_eq.
Qed.


Lemma enter_notices e w : notices (enter e w) = notices w.
Proof. done. Qed.

Lemma enter_fires e w c :
  fires (enter e w) c = negb (warned_at w c) && negb (suppressed e).
Proof. done. Qed.

(** A history of calls of one closure logs its message once, at the
    first call that is not suppressed, unless it had logged before. *)
Lemma calls_fire_notices c envs : forall w,
  wo_cell c < length (warned w) ->
  notices (calls (fire c) envs w) =
  (notices w ++
   if warned_at w c || forallb suppressed envs then [] else [wo_msg c])%list.
Proof.
  induction envs as [|e envs IH]; intros w Hc; simpl.
  - rewrite orb_true_r. by rewrite app_nil_r.
  - assert (Hc' : wo_cell c < length (warned (enter e w))) by done.
    destruct (fire_frame c (enter e w)) as (_ & _ & _ & _ & Hlen).
    rewrite IH by (by rewrite Hlen).
    rewrite (fire_warned_at c (enter e w)) by done.
    rewrite fire_notices, enter_fires. simpl.
    change (warned_at (enter e w) c) with (warned_at w c).
    change (noDeprecation (env_process e)) with (suppressed e).
    destruct (warned_at w c), (suppressed e); simpl;
      by rewrite ?app_nil_r.
Qed.


Lemma warnOnceMessage_fresh msg w :
  let c := mkWarnOnce (length (warned w)) msg in
  let w0 := with_warned (warned w ++ [false]) w in
  warnOnceMessage msg w = (w0, Normal c) /\
  wo_cell c < length (warned w0) /\ warned_at w0 c = false.
Proof.
  simpl. split; [done|]. split.
  - rewrite length_app. simpl. lia.
  - unfold warned_at. simpl.
    rewrite lookup_app_r by done. by rewrite Nat.sub_diag.
Qed.




(** ** The deduplicator *)





(** ** The notice sink *)

Lemma log_effects message w :
  effects (fst (log message w)) =
  (effects w ++
   match deprecationHandler w with
   | Some h => [HandlerCalled h message]
   | None =>
     if throwDeprecation (process w) then []
     else if traceDeprecation (process w) then [ConsoleTrace message]
     else [ConsoleWarn ("(electron) " +:+ message)]
   end)%list.
Proof. by log_cases w. Qed.

Lemma fire_effects c w :
  effects (fst (fire c w)) =
  (effects w ++
   if fires w c then
     match deprecationHandler w with
     | Some h => [HandlerCalled h (wo_msg c)]
     | None =>
       if throwDeprecation (process w) then []
       else if traceDeprecation (process w) then [ConsoleTrace (wo_msg c)]
       else [ConsoleWarn ("(electron) " +:+ wo_msg c)]
     end
   else [])%list.
Proof.
  destruct (fires w c) eqn:E.
  - rewrite fire_loud by done. by rewrite log_effects.
  - rewrite fire_silent by done. simpl. by rewrite app_nil_r.
Qed.

Lemma warn_cases oldName newName w :
  warn oldName newName w =
  if noDeprecation (process w) then (w, Normal tt)
  else log ("'" +:+ oldName +:+ "' is deprecated. Use '" +:+ newName
            +:+ "' instead.") w.
Proof. unfold warn. by destruct (noDeprecation (process w)). Qed.

(** C3.  [log] takes the first rule that applies: a registered handler
    is called with the message and nothing else happens; else with the
    throw flag an [Error] carrying the message is thrown; else with the
    trace flag the message goes to [console.trace]; else it goes to
    [console.warn] behind the tag ["(electron) "].  After
    [setHandler (Some h)] the notices of [log], [warn] and the one-shot
    closures all go to [h], whatever the flags, and these calls leave
    the handler in place; after [setHandler None] the other three rules
    decide again. *)
Theorem log_dispatch (message : string) (w : World) :
  (forall h, deprecationHandler w = Some h ->
     log message w =
     (perform (HandlerCalled h message) (note message w), Normal tt)) /\
  (deprecationHandler w = None -> throwDeprecation (process w) = true ->
     log message w = (note message w, Throw (Error message))) /\
  (deprecationHandler w = None -> throwDeprecation (process w) = false ->
   traceDeprecation (process w) = true ->
     log message w =
     (perform (ConsoleTrace message) (note message w), Normal tt)) /\
  (deprecationHandler w = None -> throwDeprecation (process w) = false ->
   traceDeprecation (process w) = false ->
     log message w =
     (perform (ConsoleWarn ("(electron) " +:+ message)) (note message w),
      Normal tt)) /\
  (forall h p c oldName newName,
     let w1 := with_process p (fst (setHandler (Some h) w)) in
     log message w1 =
       (perform (HandlerCalled h message) (note message w1), Normal tt) /\
     snd (warn oldName newName w1) = Normal tt /\
     effects (fst (warn oldName newName w1)) =
       (effects w1 ++
        if noDeprecation p then []
        else [HandlerCalled h
                ("'" +:+ oldName +:+ "' is deprecated. Use '" +:+ newName
                 +:+ "' instead.")])%list /\
     snd (fire c w1) = Normal tt /\
     effects (fst (fire c w1)) =
       (effects w1 ++
        if fires w1 c then [HandlerCalled h (wo_msg c)] else [])%list /\
     deprecationHandler (fst (log message w1)) = Some h /\
     deprecationHandler (fst (warn oldName newName w1)) = Some h /\
     deprecationHandler (fst (fire c w1)) = Some h) /\
  (forall p,
     let w2 := with_process p (fst (setHandler None w)) in
     deprecationHandler w2 = None /\
     snd (log message w2) =
       (if throwDeprecation p then Throw (Error message) else Normal tt) /\
     effects (fst (log message w2)) =
       (effects w2 ++
        if throwDeprecation p then []
        else if traceDeprecation p then [ConsoleTrace message]
        else [ConsoleWarn ("(electron) " +:+ message)])%list).
Proof.
  split; [|split; [|split; [|split; [|split]]]].
  - intros h Hh. unfold log; simpl. by rewrite Hh.
  - intros Hh Ht. unfold log; simpl. by rewrite Hh, Ht.
  - intros Hh Ht Hr. unfold log; simpl. by rewrite Hh, Ht, Hr.
  - intros Hh Ht Hr. unfold log; simpl. by rewrite Hh, Ht, Hr.
  - intros h p c oldName newName w1.
    assert (Hh : deprecationHandler w1 = Some h) by done.
    assert (Hesc : escalates w1 = false) by (unfold escalates; by rewrite Hh).
    split; [unfold log; simpl; done|].
    repeat split.
    + rewrite warn_cases. destruct (noDeprecation (process w1)); [done|].
      by rewrite log_completion, Hesc.
    + rewrite warn_cases. change (process w1) with p.
      destruct (noDeprecation p); [simpl; by rewrite app_nil_r|].
      by rewrite log_effects.
    + rewrite fire_completion, Hesc. by rewrite andb_false_r.
    + by rewrite fire_effects, Hh.
    + rewrite warn_cases. destruct (noDeprecation (process w1)); [done|].
      by destruct (log_frame
                     ("'" +:+ oldName +:+ "' is deprecated. Use '" +:+ newName
                      +:+ "' instead.") w1) as (_ & -> & _).
    + by destruct (fire_frame c w1) as (_ & -> & _).
  - intros p w2. split; [done|]. split.
    + rewrite log_completion. unfold escalates. simpl.
      by destruct (throwDeprecation p).
    + by rewrite log_effects.
Qed.

(** One world for each of the four rules. *)
Lemma log_dispatch_witness :
  log "gone" (with_handler (Some 7) empty_world) =
    (perform (HandlerCalled 7 "gone")
       (note "gone" (with_handler (Some 7) empty_world)), Normal tt) /\
  log "gone" (with_process throwing empty_world) =
    (note "gone" (with_process throwing empty_world), Throw (Error "gone")) /\
  log "gone" (with_process tracing empty_world) =
    (perform (ConsoleTrace "gone")
       (note "gone" (with_process tracing empty_world)), Normal tt) /\
  log "gone" empty_world =
    (perform (ConsoleWarn "(electron) gone") (note "gone" empty_world),
     Normal tt).
Proof.
  split; [|split; [|split]].
  - exact (proj1 (log_dispatch "gone" (with_handler (Some 7) empty_world))
             7 eq_refl).
  - exact (proj1 (proj2 (log_dispatch "gone"
                           (with_process throwing empty_world)))
             eq_refl eq_refl).
  - exact (proj1 (proj2 (proj2 (log_dispatch "gone"
                                  (with_process tracing empty_world))))
             eq_refl eq_refl eq_refl).
  - exact (proj1 (proj2 (proj2 (proj2 (log_dispatch "gone" empty_world))))
             eq_refl eq_refl eq_refl).
Defined.

(** ** Histories of anything that runs a one-shot closure *)

Section OneShot.
Context {A B : Type} (c : WarnOnce) (act : B -> M A) (I : World -> Prop).
Hypothesis I_enter : forall e w, I w -> I (enter e w).
Hypothesis act_fire : forall b w,
  I w ->
  I (fst (act b w)) /\
  notices (fst (act b w)) = notices (fst (fire c w)) /\
  warned (fst (act b w)) = warned (fst (fire c w)).

Lemma calls_with_notices steps : forall w,
  I w -> wo_cell c < length (warned w) ->
  notices (calls_with act steps w) =
  (notices w ++
   if warned_at w c || forallb (fun s => suppressed (fst s)) steps
   then [] else [wo_msg c])%list.
Proof.
  induction steps as [|[e b] steps IH]; intros w Hw Hc; simpl.
  - rewrite orb_true_r. by rewrite app_nil_r.
  - destruct (act_fire b (enter e w)) as (HI & Hn & Hwd); [by apply I_enter|].
    destruct (fire_frame c (enter e w)) as (_ & _ & _ & _ & Hlen).
    rewrite IH; [|done|by rewrite Hwd, Hlen].
    unfold warned_at at 1. rewrite Hwd, Hn.
    fold (warned_at (fst (fire c (enter e w))) c).
    rewrite (fire_warned_at c (enter e w)) by done.
    rewrite fire_notices, enter_fires. simpl.
    change (warned_at (enter e w) c) with (warned_at w c).
    change (noDeprecation (env_process e)) with (suppressed e).
    destruct (warned_at w c), (suppressed e); simpl;
      by rewrite ?app_nil_r.
Qed.
End OneShot.

Lemma forallb_steps_unsuppressed {B} (steps : list (Env * B)) :
  steps <> [] -> Forall (fun s => suppressed (fst s) = false) steps ->
  forallb (fun s => suppressed (fst s)) steps = false.
Proof. intros Hne H. destruct H; [done|]. simpl. by rewrite H. Qed.

Lemma host_call_frame f this args w :
  let w' := fst (host_call f this args w) in
  process w' = process w /\ deprecationHandler w' = deprecationHandler w /\
  warned w' = warned w /\ heap w' = heap w /\ listeners w' = listeners w /\
  notices w' = notices w.
Proof. done. Qed.

(** ** Wrapped functions *)

Lemma call_forwarding c fn this args w :
  call_function (ForwardingFunction c fn) this args w =
  if fires w c && escalates w then (fst (fire c w), Throw (Error (wo_msg c)))
  else (perform (HostCalled (hf_id fn) this args) (fst (fire c w)),
        hf_apply fn this args).
Proof.
  unfold call_function, bind.
  pose proof (fire_completion c w) as Hr.
  destruct (fire c w) as [w' r]; simpl in *. subst r.
  by destruct (fires w c && escalates w).
Qed.

Lemma call_removed c fn this args w :
  call_function (RemovedFunction c fn) this args w =
  if fires w c && escalates w then (fst (fire c w), Throw (Error (wo_msg c)))
  else (perform (HostCalled (hf_id fn) this args) (fst (fire c w)),
        match hf_apply fn this args with
        | Normal _ => Normal VUndefined
        | Throw e => Throw e
        | Exhausted => Exhausted
        end).
Proof.
  unfold call_function, bind.
  pose proof (fire_completion c w) as Hr.
  destruct (fire c w) as [w' r]; simpl in *. subst r.
  destruct (fires w c && escalates w); [done|].
  unfold host_call. by destruct (hf_apply fn this args).
Qed.

Lemma given_suffixed s t :
  t <> EmptyString -> given (Some (s +:+ t)) = Some (s +:+ t).
Proof. intros Ht. destruct s; simpl; [|done]. by destruct t. Qed.

Lemma invoke_fire_like c fn (call : JsVal * list JsVal) w :
  notices (fst (invoke (ForwardingFunction c fn) call w))
  = notices (fst (fire c w)) /\
  warned (fst (invoke (ForwardingFunction c fn) call w))
  = warned (fst (fire c w)).
Proof.
  unfold invoke. rewrite call_forwarding.
  by destruct (fires w c && escalates w).
Qed.

Lemma renameFunction_eq fn newName w :
  renameFunction fn newName w =
  (with_warned (warned w ++ [false]) w,
   Normal (ForwardingFunction
             (mkWarnOnce (length (warned w))
                ("'" +:+ (hf_name fn +:+ " function")
                 +:+ "' is deprecated and will be removed. Please use '"
                 +:+ (newName +:+ " function") +:+ "' instead."))
             fn)).
Proof.
  unfold renameFunction, warnOnce, bind.
  by rewrite given_suffixed.
Qed.

(** C4, as the code has it.  [renameFunction fn newName] never fails and
    returns a wrapper around a fresh one-shot closure.  A call of the
    wrapper with [this] and [args] ends as [fn] applied to the same
    [this] and [args] ends, with the same value, unless this call's
    warning is turned into a throw (suppression off, nothing logged by
    this wrapper yet, throw flag set, no handler): then the call throws
    the warning and [fn] is not called.  Called once or more with the
    suppression flag off, one wrapper logs its warning exactly once, at
    the first call, and logs nothing at the later calls. *)
Theorem renameFunction_forwards (fn : HostFn) (newName : string) (w : World) :
  exists c,
    let wr := ForwardingFunction c fn in
    let w0 := fst (renameFunction fn newName w) in
    snd (renameFunction fn newName w) = Normal wr /\
    wo_msg c =
      "'" +:+ (hf_name fn +:+ " function")
      +:+ "' is deprecated and will be removed. Please use '"
      +:+ (newName +:+ " function") +:+ "' instead." /\
    notices w0 = notices w /\
    (forall this args w1,
       let throws := fires w1 c && escalates w1 in
       snd (call_function wr this args w1) =
         (if throws then Throw (Error (wo_msg c))
          else hf_apply fn this args) /\
       effects (fst (call_function wr this args w1)) =
         (effects (fst (fire c w1)) ++
          if throws then [] else [HostCalled (hf_id fn) this args])%list) /\
    (forall first rest,
       Forall (fun s => suppressed (fst s) = false) (first :: rest) ->
       notices (calls_with (invoke wr) [first] w0)
       = (notices w ++ [wo_msg c])%list /\
       notices (calls_with (invoke wr) (first :: rest) w0)
       = (notices w ++ [wo_msg c])%list).
Proof.
  rewrite renameFunction_eq.
  match goal with |- context [mkWarnOnce _ ?m] =>
    destruct (warnOnceMessage_fresh m w) as (_ & Hc & Hw);
    set (c := mkWarnOnce (length (warned w)) m) in *
  end.
  exists c; cbn [fst snd]. split; [reflexivity|]. split; [reflexivity|].
  split; [reflexivity|]. split.
  - intros this args w1. rewrite call_forwarding.
    destruct (fires w1 c && escalates w1); simpl; [|done].
    by rewrite app_nil_r.
  - intros first rest Hoff.
    assert (Hfirst : Forall (fun s : Env * (JsVal * list JsVal) =>
                               suppressed (fst s) = false) [first])
      by (inversion Hoff; by constructor).
    assert (Hlike : forall (b : JsVal * list JsVal) w1,
              True ->
              True /\
              notices (fst (invoke (ForwardingFunction c fn) b w1))
              = notices (fst (fire c w1)) /\
              warned (fst (invoke (ForwardingFunction c fn) b w1))
              = warned (fst (fire c w1)))
      by (intros b w1 _; split; [done|]; apply invoke_fire_like).
    split;
      rewrite (calls_with_notices c _ (fun _ => True)
                 (fun _ _ _ => Logic.I) Hlike) by done;
      rewrite Hw; cbn [orb];
      by rewrite forallb_steps_unsuppressed.
Qed.

(** Two unsuppressed calls of a wrapper of [answer]. *)
Lemma renameFunction_forwards_witness :
  let c := mkWarnOnce 0
    "'f function' is deprecated and will be removed. Please use 'g function' instead." in
  let wr := ForwardingFunction c answer in
  let call := (VObject 3, [VNumber 1; VNumber 2]) in
  let steps := [(mkEnv quiet None, call); (mkEnv tracing None, call)] in
  Forall (fun s => suppressed (fst s) = false) steps /\
  notices (calls_with (invoke wr) steps (with_warned [false] empty_world))
  = [wo_msg c].
Proof.
  intros c wr call steps.
  destruct (renameFunction_forwards answer "g" empty_world)
    as (c' & Hwr & Hmsg & _ & _ & Hseq).
  injection Hwr as <-.
  assert (Hoff : Forall (fun s : Env * (JsVal * list JsVal) =>
                           suppressed (fst s) = false) steps)
    by (repeat constructor).
  exact (conj Hoff (proj2 (Hseq _ _ Hoff))).
Defined.

(** Without the provisos the statement fails.  Under suppression the
    first call of the wrapper logs nothing and a later, unsuppressed call
    logs the warning; under the throw flag the first call throws the
    warning instead of returning 42, and [answer] is never called. *)
Lemma renameFunction_counterexample :
  let msg :=
    "'f function' is deprecated and will be removed. Please use 'g function' instead." in
  let wr := ForwardingFunction (mkWarnOnce 0 msg) answer in
  let call := (VObject 3, [VNumber 1; VNumber 2]) in
  (let w := with_process silenced empty_world in
   renameFunction answer "g" w = (with_warned [false] w, Normal wr) /\
   notices (calls_with (invoke wr) [(mkEnv silenced None, call)]
              (with_warned [false] w)) = [] /\
   notices (calls_with (invoke wr)
              [(mkEnv silenced None, call); (mkEnv quiet None, call)]
              (with_warned [false] w)) = [msg]) /\
  (let w := with_process throwing empty_world in
   renameFunction answer "g" w = (with_warned [false] w, Normal wr) /\
   hf_apply answer (fst call) (snd call) = Normal (VNumber 42) /\
   snd (invoke wr call (with_warned [false] w)) = Throw (Error msg) /\
   effects (fst (invoke wr call (with_warned [false] w))) = []).
Proof. vm_compute. repeat split. Qed.

(** C5, as the code has it.  [removeFunction] throws when it is made,
    if and only if [fn] is missing.  Otherwise it returns a wrapper
    around a fresh one-shot closure whose message names [fn] by its own
    name and offers no replacement.  Every call of the wrapper runs that
    closure first; unless this turns the warning into a throw
    (suppression off, nothing logged by this wrapper yet, throw flag
    set, no handler), the call then applies [fn] to the same [this] and
    arguments and returns [undefined] whatever [fn] returned. *)
Theorem removeFunction_wraps (removedName : string) (w : World) :
  removeFunction None removedName w =
    (w, Throw (Error ("'" +:+ removedName
                      +:+ " function' is invalid or does not exist."))) /\
  forall fn, exists c,
    let wr := RemovedFunction c fn in
    removeFunction (Some fn) removedName w =
      (with_warned (warned w ++ [false])%list w, Normal wr) /\
    c = mkWarnOnce (length (warned w))
          ("'" +:+ (hf_name fn +:+ " function")
           +:+ "' is deprecated and will be removed.") /\
    forall this args w1,
      let throws := fires w1 c && escalates w1 in
      notices (fst (call_function wr this args w1))
      = notices (fst (fire c w1)) /\
      warned (fst (call_function wr this args w1))
      = warned (fst (fire c w1)) /\
      effects (fst (call_function wr this args w1)) =
        (effects (fst (fire c w1)) ++
         if throws then [] else [HostCalled (hf_id fn) this args])%list /\
      snd (call_function wr this args w1) =
        (if throws then Throw (Error (wo_msg c))
         else match hf_apply fn this args with
              | Normal _ => Normal VUndefined
              | Throw e => Throw e
              | Exhausted => Exhausted
              end).
Proof.
  split; [done|]. intros fn. eexists. split; [reflexivity|].
  split; [reflexivity|]. intros this args w1. cbv zeta.
  rewrite call_removed.
  destruct (fires w1 _ && escalates w1); simpl; [|done].
  by rewrite app_nil_r.
Qed.

(** Without the provisos the statement fails.  Under the throw flag
    the first call of the wrapper throws and [answer] is never called;
    with all flags off two calls log the warning once, not twice. *)
Lemma removeFunction_counterexample :
  let msg := "'f function' is deprecated and will be removed." in
  let wr := RemovedFunction (mkWarnOnce 0 msg) answer in
  let call := (VObject 3, [VNumber 1]) in
  (let w := with_process throwing empty_world in
   removeFunction (Some answer) "h" w = (with_warned [false] w, Normal wr) /\
   snd (invoke wr call (with_warned [false] w)) = Throw (Error msg) /\
   effects (fst (invoke wr call (with_warned [false] w))) = []) /\
  (let w := empty_world in
   removeFunction (Some answer) "h" w = (with_warned [false] w, Normal wr) /\
   notices (calls_with (invoke wr)
              [(mkEnv quiet None, call); (mkEnv quiet None, call)]
              (with_warned [false] w)) = [msg]).
Proof. vm_compute. repeat split. Qed.

(** ** Renamed events *)

Lemma event_eq emitter oldName newName transformer w :
  event emitter oldName newName transformer w =
  let msg :=
    if String.prefix "-" newName
    then "'" +:+ (oldName +:+ " event")
         +:+ "' is deprecated and will be removed."
    else "'" +:+ (oldName +:+ " event")
         +:+ "' is deprecated and will be removed. Please use '"
         +:+ (newName +:+ " event") +:+ "' instead." in
  let l := DeprecatedEvent (mkWarnOnce (length (warned w)) msg) oldName
             (default (fun args => Some args) transformer) in
  (with_listeners
     (<[(emitter, newName) := (listeners_of w emitter newName ++ [l])%list]>
        (listeners w))
     (with_warned (warned w ++ [false]) w),
   Normal emitter).
Proof.
  unfold event, warnOnce, bind.
  destruct (String.prefix "-" newName); [done|].
  by rewrite given_suffixed.
Qed.

Lemma react_cases n c oldName tr emitter args w :
  react n (DeprecatedEvent c oldName tr) emitter args w =
  if (listenerCount w emitter oldName =? 0)%nat then (w, Normal tt)
  else if fires w c && escalates w
       then (fst (fire c w), Throw (Error (wo_msg c)))
       else match tr args with
            | Some transformedArgs =>
              (emit n emitter oldName transformedArgs ;;; ret tt)
                (fst (fire c w))
            | None => (fst (fire c w), Normal tt)
            end.
Proof.
  unfold react, call_listener.
  destruct (listenerCount w emitter oldName =? 0)%nat; simpl; [done|].
  unfold bind at 1.
  pose proof (fire_completion c w) as Hr.
  destruct (fire c w) as [w' r]; simpl in *. subst r.
  destruct (fires w c && escalates w); [done|].
  by destruct (tr args).
Qed.





Lemma bind_ret_fst {A B} (m : M A) (b : B) w :
  fst ((m ;;; ret b) w) = fst (m w).
Proof. unfold bind, ret. by destruct (m w) as [w' []]. Qed.

(** Notices are only ever added. *)
Lemma call_listeners_notices_grow em emitter args :
  (forall name targs w,
      exists rest, notices (fst (em emitter name targs w))
                   = (notices w ++ rest)%list) ->
  forall ls w,
    exists rest, notices (fst (call_listeners em ls emitter args w))
                 = (notices w ++ rest)%list.
Proof.
  intros Hem. induction ls as [|l ls IH]; intros w; simpl.
  - exists []. by rewrite app_nil_r.
  - assert (Hl : exists rest,
               notices (fst (call_listener em l emitter args w))
               = (notices w ++ rest)%list).
    { destruct l as [f|c oldName tr].
      - exists []. simpl. unfold bind, host_call.
        destruct (hf_apply f (VObject emitter) args); simpl;
          by rewrite app_nil_r.
      - change (call_listener em (DeprecatedEvent c oldName tr) emitter args w)
          with (if negb (listenerCount w emitter oldName =? 0)%nat
                then (fire c ;;;
                      match tr args with
                      | Some targs => em emitter oldName targs ;;; ret tt
                      | None => ret tt
                      end) w
                else (w, Normal tt)).
        destruct (listenerCount w emitter oldName =? 0)%nat; simpl.
        { exists []. by rewrite app_nil_r. }
        unfold bind at 1.
        pose proof (fire_notices c w) as Hf.
        destruct (fire c w) as [w' r]; simpl in Hf.
        destruct r; simpl; try by eauto.
        destruct (tr args) as [targs|]; simpl; [|by eauto].
        rewrite bind_ret_fst.
        destruct (Hem oldName targs w') as [rest ->].
        rewrite Hf, <- app_assoc. by eauto. }
    unfold bind.
    destruct Hl as [rest1 Hl].
    destruct (call_listener em l emitter args w) as [w' r]; simpl in Hl.
    destruct r; simpl; try by eauto.
    destruct (IH w') as [rest2 ->].
    rewrite Hl, <- app_assoc. by eauto.
Qed.

Lemma emit_notices_grow n : forall emitter name args w,
  exists rest, notices (fst (emit n emitter name args w))
               = (notices w ++ rest)%list.
Proof.
  induction n as [|n IH]; intros emitter name args w; simpl.
  - exists []. by rewrite app_nil_r.
  - rewrite bind_ret_fst.
    apply call_listeners_notices_grow. intros. apply IH.
Qed.






Lemma append_cancel_l (s a b : string) : s +:+ a = s +:+ b -> a = b.
Proof. induction s as [|ch s IH]; simpl; [done|]. intros [= H]. auto. Qed.

(** C7.  When the new name starts with the marker of internal events,
    ["-"], the closure that [event] makes carries the message without a
    replacement, ['<oldName> event' is deprecated and will be removed.],
    and not the one that goes on to suggest the new event name; that is
    the message logged when the registered listener first runs its
    closure. *)
Theorem event_internal_message (emitter : loc) (oldName newName : string)
    (transformer : option (list JsVal -> option (list JsVal))) (w : World) :
  String.prefix "-" newName = true ->
  exists c,
    let l := DeprecatedEvent c oldName
               (default (fun args => Some args) transformer) in
    let w0 := fst (event emitter oldName newName transformer w) in
    wo_msg c =
      "'" +:+ (oldName +:+ " event")
      +:+ "' is deprecated and will be removed." /\
    wo_msg c <>
      "'" +:+ (oldName +:+ " event")
      +:+ "' is deprecated and will be removed. Please use '"
      +:+ (newName +:+ " event") +:+ "' instead." /\
    listeners_of w0 emitter newName
    = (listeners_of w emitter newName ++ [l])%list /\
    forall n args w1,
      listenerCount w1 emitter oldName <> 0 -> fires w1 c = true ->
      exists rest,
        notices (fst (react n l emitter args w1))
        = (notices w1 ++ [wo_msg c] ++ rest)%list.
Proof.
  intros Hint. rewrite event_eq, Hint. cbv zeta.
  set (c := mkWarnOnce (length (warned w)) _).
  exists c. cbn [fst snd].
  split; [reflexivity|]. split; [|split].
  - intros H. subst c. cbn [wo_msg] in H.
    do 2 apply append_cancel_l in H.
    simpl in H. discriminate H.
  - unfold listeners_of at 1. simpl. by rewrite lookup_insert_eq.
  - intros n args w1 H0 Hf. rewrite react_cases.
    destruct (listenerCount w1 emitter oldName) as [|k]; [done|].
    simpl (_ =? _)%nat. cbv iota.
    pose proof (fire_notices c w1) as Hn.
    rewrite Hf in Hn. rewrite Hf. simpl (true && _).
    destruct (escalates w1); cbn [fst]; [exists []; by rewrite Hn|].
    destruct (default _ transformer args) as [targs|]; cbn [fst];
      [|exists []; by rewrite Hn].
    rewrite bind_ret_fst.
    destruct (emit_notices_grow n emitter oldName targs (fst (fire c w1)))
      as [rest ->].
    exists rest. by rewrite Hn, <- app_assoc.
Qed.

(** The internal event ["-new"]. *)
Lemma event_internal_message_witness :
  String.prefix "-" "-new" = true /\
  exists rest,
    notices (fst (react 2
                    (DeprecatedEvent
                       (mkWarnOnce 0
                          "'old event' is deprecated and will be removed.")
                       "old" (fun args => Some args))
                    0 [VNumber 1]
                    (fst (event 0 "old" "-new" None emitter_world))))
    = (["'old event' is deprecated and will be removed."] ++ rest)%list.
Proof.
  split; [reflexivity|].
  destruct (event_internal_message 0 "old" "-new" None emitter_world eq_refl)
    as (c & Hmsg & _ & Hl & Hlog).
  cbv zeta in Hl, Hlog.
  assert (Hc : c = mkWarnOnce 0
                     "'old event' is deprecated and will be removed.").
  { vm_compute in Hl. by injection Hl as <-. }
  subst c.
  destruct (Hlog 2 [VNumber 1] (fst (event 0 "old" "-new" None emitter_world)))
    as [rest Hrest]; [by vm_compute|reflexivity|].
  exists rest. exact Hrest.
Defined.

(** ** Removed properties *)




(** ** Property lookups *)

Lemma size_heap_pos (h : gmap loc Object) o obj :
  h !! o = Some obj -> exists k, size h = S k.
Proof.
  intros Ho. destruct (size h) as [|k] eqn:E; [|by eauto].
  apply map_size_empty_inv in E. subst h. by rewrite lookup_empty in Ho.
Qed.

Lemma find_property_own (h : gmap loc Object) o obj name p :
  h !! o = Some obj -> props obj !! name = Some p ->
  find_property h o name = Some p.
Proof.
  intros Ho Hp. unfold find_property.
  destruct (size_heap_pos h o obj Ho) as [k ->]. simpl.
  by rewrite Ho, Hp.
Qed.


Lemma defineProperty_eq o name p w obj :
  heap w !! o = Some obj ->
  defineProperty o name p w =
  (with_heap (<[o := mkObject (proto obj) (<[name := p]> (props obj))]>
                (heap w)) w,
   Normal o).
Proof. unfold defineProperty. by intros ->. Qed.







(** ** Renamed properties *)

Lemma has_property_found w o name p :
  find_property (heap w) o name = Some p -> has_property w o name = true.
Proof. unfold has_property. intros ->. by apply bool_decide_eq_true_2. Qed.

Lemma has_property_missing w o name :
  find_property (heap w) o name = None -> has_property w o name = false.
Proof.
  unfold has_property. intros ->. apply bool_decide_eq_false_2.
  by intros [? ?].
Qed.

Lemma Get_data k o name v w :
  find_property (heap w) o name = Some (Data v) ->
  Get (S k) o name w = (w, Normal v).
Proof. simpl. by intros ->. Qed.

Lemma Set_data k o name v w obj :
  heap w !! o = Some obj ->
  find_property (heap w) o name = None \/
  (exists v0, find_property (heap w) o name = Some (Data v0)) ->
  Set_ (S k) o name v w =
  (with_heap (<[o := mkObject (proto obj) (<[name := Data v]> (props obj))]>
                (heap w)) w,
   Normal tt).
Proof.
  intros Hobj Hfind. cbn [Set_].
  assert (Hdef : (defineProperty o name (Data v) ;;; ret tt) w =
                 (with_heap
                    (<[o := mkObject (proto obj)
                              (<[name := Data v]> (props obj))]> (heap w)) w,
                  Normal tt)).
  { unfold bind. by rewrite (defineProperty_eq _ _ _ _ obj Hobj). }
  destruct Hfind as [-> | [v0 ->]]; exact Hdef.
Qed.

Lemma renameProperty_run n object oldName newName v w obj :
  heap w !! object = Some obj ->
  find_property (heap w) object oldName = Some (Data v) ->
  find_property (heap w) object newName = None ->
  let c := mkWarnOnce (length (warned w))
             match given (Some newName) with
             | Some newName =>
               "'" +:+ oldName
               +:+ "' is deprecated and will be removed. Please use '"
               +:+ newName +:+ "' instead."
             | None => "'" +:+ oldName +:+ "' is deprecated and will be removed."
             end in
  let wa := with_warned (warned w ++ [false]) w in
  renameProperty (S n) object oldName newName w =
  if fires wa c && escalates wa
  then (fst (fire c wa), Throw (Error (wo_msg c)))
  else (with_heap
          (<[object :=
               mkObject (proto obj)
                 (<[oldName := Accessor (Some (RenamedGet c object newName))
                                        (Some (RenamedSet c object newName))]>
                    (<[newName := Data v]> (props obj)))]> (heap w))
          (fst (fire c wa)),
        Normal object).
Proof.
  intros Hobj Hold Hnew c wa.
  unfold renameProperty, warnOnce. unfold bind at 1.
  change (warnOnceMessage _ w) with (wa, Normal c). cbv beta iota.
  unfold bind at 1.
  rewrite (has_property_found wa object oldName (Data v)) by exact Hold.
  rewrite (has_property_missing wa object newName) by exact Hnew.
  cbn [andb negb]. unfold bind at 1.
  pose proof (fire_completion c wa) as Hr.
  destruct (fire_frame c wa) as (_ & _ & Hh & _).
  destruct (fire c wa) as [wb r]; cbn [fst snd] in *. subst r.
  destruct (fires wa c && escalates wa); [done|].
  assert (Hheap : heap wb = heap w) by (rewrite Hh; done).
  unfold bind at 1.
  rewrite (Get_data _ _ _ v) by (rewrite Hheap; exact Hold).
  rewrite (Set_data _ _ _ _ _ obj);
    [|by rewrite Hheap|left; by rewrite Hheap].
  rewrite (defineProperty_eq _ _ _ _
             (mkObject (proto obj) (<[newName := Data v]> (props obj))))
    by (simpl; by rewrite lookup_insert_eq).
  simpl. by rewrite insert_insert_eq, Hheap.
Qed.

Lemma renamed_read k c object oldName newName s v w obj :
  heap w !! object = Some obj ->
  props obj !! oldName
  = Some (Accessor (Some (RenamedGet c object newName)) s) ->
  props obj !! newName = Some (Data v) ->
  Get (S (S k)) object oldName w =
  (fst (fire c w),
   if fires w c && escalates w then Throw (Error (wo_msg c)) else Normal v).
Proof.
  intros Hobj Hold Hnew. cbn [Get].
  rewrite (find_property_own _ _ _ _ _ Hobj Hold).
  cbn [call_getter]. unfold bind.
  pose proof (fire_completion c w) as Hr.
  destruct (fire_frame c w) as (_ & _ & Hh & _).
  destruct (fire c w) as [w' r]; cbn [fst snd] in *. subst r.
  destruct (fires w c && escalates w); [done|].
  rewrite <- Hh in Hobj.
  by rewrite (find_property_own _ _ _ _ _ Hobj Hnew).
Qed.






(** * Further properties *)

(** ** [warn] *)

Lemma warn_notices oldName newName w :
  notices (fst (warn oldName newName w)) =
  (notices w ++
   if noDeprecation (process w) then []
   else ["'" +:+ oldName +:+ "' is deprecated. Use '" +:+ newName
         +:+ "' instead."])%list.
Proof.
  rewrite warn_cases. destruct (noDeprecation (process w)).
  - simpl. by rewrite app_nil_r.
  - by rewrite log_notices.
Qed.

(** X1.  [warn] is not deduplicated: over any history of calls it logs
    its message once for every call made while the suppression flag is
    off, and nothing for the others. *)
Theorem warn_logs_every_call (oldName newName : string) (envs : list Env)
    (w : World) :
  notices (calls (warn oldName newName) envs w) =
  (notices w ++
   map (fun _ => "'" +:+ oldName +:+ "' is deprecated. Use '" +:+ newName
                 +:+ "' instead.")
       (List.filter (fun e => negb (suppressed e)) envs))%list.
Proof.
  revert w. induction envs as [|e envs IH]; intros w; simpl.
  - by rewrite app_nil_r.
  - rewrite IH, warn_notices. simpl.
    change (noDeprecation (env_process e)) with (suppressed e).
    destruct (suppressed e); simpl; [by rewrite app_nil_r|].
    by rewrite <- app_assoc.
Qed.

(** ** [warnOnce] *)

(** X2.  [warnOnce] always makes a closure.  Its message suggests the
    new name when one is given and is not the empty string, and is the
    message without a replacement when the new name is missing or
    empty.  Over any history of calls the closure logs that message
    once, at the first call made while the suppression flag is off, and
    never when all calls are suppressed. *)
Theorem warnOnce_logs_formatted_once (oldName : string)
    (newName : option string) (w : World) :
  exists c,
    let w0 := with_warned (warned w ++ [false]) w in
    warnOnce oldName newName w = (w0, Normal c) /\
    (newName = None \/ newName = Some EmptyString ->
     wo_msg c = "'" +:+ oldName +:+ "' is deprecated and will be removed.") /\
    (forall n, newName = Some n -> n <> EmptyString ->
     wo_msg c =
       "'" +:+ oldName +:+ "' is deprecated and will be removed. Please use '"
       +:+ n +:+ "' instead.") /\
    forall envs,
      notices (calls (fire c) envs w0) =
      (notices w ++ if forallb suppressed envs then [] else [wo_msg c])%list.
Proof.
  unfold warnOnce.
  match goal with |- context [warnOnceMessage ?m w] =>
    destruct (warnOnceMessage_fresh m w) as (Hmk & Hc & Hw);
    set (c := mkWarnOnce (length (warned w)) m) in *
  end.
  exists c. cbv zeta. split; [exact Hmk|]. split; [|split].
  - by intros [-> | ->].
  - intros n -> Hn. subst c. cbn [wo_msg given]. by destruct n.
  - intros envs. by rewrite calls_fire_notices, Hw.
Qed.

(** A new name, no new name, and the empty new name. *)
Lemma warnOnce_logs_formatted_once_witness :
  (exists c,
     warnOnce "old" (Some "new") empty_world
     = (with_warned [false] empty_world, Normal c) /\
     wo_msg c
     = "'old' is deprecated and will be removed. Please use 'new' instead.") /\
  (exists c,
     warnOnce "old" (Some EmptyString) empty_world
     = (with_warned [false] empty_world, Normal c) /\
     wo_msg c = "'old' is deprecated and will be removed.").
Proof.
  split.
  - destruct (warnOnce_logs_formatted_once "old" (Some "new") empty_world)
      as (c & Hmk & _ & Hnew & _).
    exists c. split; [exact Hmk|].
    apply (Hnew "new" eq_refl). discriminate.
  - destruct (warnOnce_logs_formatted_once "old" (Some EmptyString)
                empty_world) as (c & Hmk & Hno & _).
    exists c. split; [exact Hmk|]. apply Hno. by right.
Defined.

(** ** The handler *)

Lemma notify_handler n w :
  deprecationHandler (fst (notify n w)) = deprecationHandler w.
Proof.
  destruct n as [message|oldName newName|c]; simpl.
  - by destruct (log_frame message w) as (_ & -> & _).
  - rewrite warn_cases. destruct (noDeprecation (process w)); [done|].
    by destruct (log_frame
                   ("'" +:+ oldName +:+ "' is deprecated. Use '" +:+ newName
                    +:+ "' instead.") w) as (_ & -> & _).
  - by destruct (fire_frame c w) as (_ & -> & _).
Qed.

Lemma notify_routed n k w :
  deprecationHandler w = Some k ->
  exists msgs,
    notices (fst (notify n w)) = (notices w ++ msgs)%list /\
    effects (fst (notify n w))
    = (effects w ++ map (HandlerCalled k) msgs)%list.
Proof.
  intros Hk. destruct n as [message|oldName newName|c]; simpl.
  - exists [message]. by rewrite log_notices, log_effects, Hk.
  - rewrite warn_cases. destruct (noDeprecation (process w)).
    + exists []. simpl. by rewrite !app_nil_r.
    + eexists [_]. by rewrite log_notices, log_effects, Hk.
  - rewrite fire_notices, fire_effects, Hk.
    destruct (fires w c); [by exists [wo_msg c]|by exists []].
Qed.

(** X3.  [getHandler] returns what [setHandler] was last given, also
    after any number of notices asked for through [log], [warn] or a
    one-shot closure, under any flags.  When that handler is a function,
    every notice logged in between was passed to it, in order, and
    nothing else was written. *)
Theorem handler_kept_and_reached (h : option nat)
    (steps : list (Process * Notice)) (w : World) :
  let w1 := fst (setHandler h w) in
  let w2 := notices_under steps w1 in
  getHandler w2 = (w2, Normal h) /\
  forall k, h = Some k ->
    exists msgs,
      notices w2 = (notices w ++ msgs)%list /\
      effects w2 = (effects w ++ map (HandlerCalled k) msgs)%list.
Proof.
  cbv zeta.
  assert (Hgen : forall w1,
            deprecationHandler w1 = h ->
            deprecationHandler (notices_under steps w1) = h /\
            forall k, h = Some k ->
              exists msgs,
                notices (notices_under steps w1) = (notices w1 ++ msgs)%list /\
                effects (notices_under steps w1)
                = (effects w1 ++ map (HandlerCalled k) msgs)%list).
  { induction steps as [|[p n] steps IH]; intros w1 Hh; simpl.
    - split; [done|]. intros k _. exists []. simpl. by rewrite !app_nil_r.
    - assert (Hh' : deprecationHandler (fst (notify n (with_process p w1))) = h)
        by (by rewrite notify_handler).
      destruct (IH _ Hh') as (Hkeep & Hreach). split; [exact Hkeep|].
      intros k Hk. destruct (Hreach k Hk) as (msgs2 & Hn2 & He2).
      destruct (notify_routed n k (with_process p w1)) as (msgs1 & Hn1 & He1);
        [by rewrite <- Hk|].
      exists (msgs1 ++ msgs2)%list.
      rewrite Hn2, He2, Hn1, He1, map_app, <- !app_assoc. done. }
  destruct (Hgen (fst (setHandler h w)) eq_refl) as (Hkeep & Hreach).
  split; [unfold getHandler; by rewrite Hkeep|exact Hreach].
Qed.

(** A handler, then a [log] under the throw flag, a suppressed and an
    unsuppressed [warn]. *)
Lemma handler_kept_and_reached_witness :
  let steps := [(throwing, ByLog "gone"); (silenced, ByWarn "a" "b");
                (quiet, ByWarn "a" "b")] in
  let w2 := notices_under steps (fst (setHandler (Some 7) empty_world)) in
  snd (getHandler w2) = Normal (Some 7) /\
  exists msgs,
    notices w2 = msgs /\ effects w2 = map (HandlerCalled 7) msgs.
Proof.
  intros steps w2.
  destruct (handler_kept_and_reached (Some 7) steps empty_world)
    as (Hget & Hreach).
  destruct (Hreach 7 eq_refl) as (msgs & Hn & He).
  split; [exact (f_equal snd Hget)|]. exists msgs.
  split; [exact Hn|exact He].
Defined.

(** ** Histories of anything that runs a one-shot closure now and then *)

Section Gated.
Context {A B : Type} (c : WarnOnce) (act : B -> M A) (runs : B -> bool)
        (I : World -> Prop).
Hypothesis I_enter : forall e w, I w -> I (enter e w).
Hypothesis act_runs : forall b w,
  I w ->
  I (fst (act b w)) /\
  notices (fst (act b w))
  = (if runs b then notices (fst (fire c w)) else notices w) /\
  warned (fst (act b w))
  = (if runs b then warned (fst (fire c w)) else warned w).

Lemma gated_step e b w :
  I w -> wo_cell c < length (warned w) ->
  let w' := fst (act b (enter e w)) in
  I w' /\ length (warned w') = length (warned w) /\
  warned_at w' c = warned_at w c || can_log runs (e, b) /\
  notices w'
  = (notices w ++
     if negb (warned_at w c) && can_log runs (e, b) then [wo_msg c] else [])%list.
Proof.
  intros Hw Hc. cbv zeta.
  destruct (act_runs b (enter e w)) as (HI & Hn & Hwd); [by apply I_enter|].
  destruct (fire_frame c (enter e w)) as (_ & _ & _ & _ & Hlen).
  pose proof (fire_warned_at c (enter e w) Hc) as Hat.
  pose proof (fire_notices c (enter e w)) as Hfn.
  rewrite enter_fires in Hfn.
  unfold warned_at at 1. rewrite Hwd, Hn. unfold can_log. simpl.
  destruct (runs b).
  - fold (warned_at (fst (fire c (enter e w))) c).
    rewrite Hlen, Hat, Hfn. simpl.
    change (warned_at (enter e w) c) with (warned_at w c).
    change (noDeprecation (env_process e)) with (suppressed e).
    rewrite !andb_true_r. by repeat split.
  - fold (warned_at (enter e w) c).
    change (warned_at (enter e w) c) with (warned_at w c).
    rewrite !andb_false_r, orb_false_r. simpl. rewrite app_nil_r.
    by repeat split.
Qed.

Lemma gated_history steps : forall w,
  I w -> wo_cell c < length (warned w) ->
  let w' := calls_with act steps w in
  I w' /\ length (warned w') = length (warned w) /\
  warned_at w' c = warned_at w c || existsb (can_log runs) steps /\
  notices w'
  = (notices w ++
     if negb (warned_at w c) && existsb (can_log runs) steps
     then [wo_msg c] else [])%list.
Proof.
  induction steps as [|[e b] steps IH]; intros w Hw Hc; simpl.
  - rewrite orb_false_r, andb_false_r, app_nil_r. by repeat split.
  - destruct (gated_step e b w Hw Hc) as (HI & Hlen & Hat & Hn).
    destruct (IH (fst (act b (enter e w))) HI) as (HI' & Hlen' & Hat' & Hn');
      [by rewrite Hlen|].
    split; [exact HI'|]. split; [by rewrite Hlen', Hlen|].
    rewrite Hat', Hn', Hat, Hn.
    destruct (warned_at w c), (can_log runs (e, b)); simpl;
      by rewrite ?app_nil_r.
Qed.
End Gated.

(** ** Wrapped functions, over time *)

Lemma call_function_cases wr this args w :
  let c := wrapper_warn wr in
  call_function wr this args w =
  if fires w c && escalates w then (fst (fire c w), Throw (Error (wo_msg c)))
  else (perform (HostCalled (hf_id (wrapper_fn wr)) this args) (fst (fire c w)),
        wrapper_result wr this args).
Proof.
  destruct wr as [c fn|c fn]; cbv zeta; cbn [wrapper_warn wrapper_fn].
  - by rewrite call_removed.
  - by rewrite call_forwarding.
Qed.

Lemma existsb_can_log_always {B} (steps : list (Env * B)) :
  existsb (can_log (fun _ => true)) steps
  = negb (forallb (fun s => suppressed (fst s)) steps).
Proof.
  induction steps as [|[e b] steps IH]; simpl; [done|].
  rewrite IH. unfold can_log. simpl.
  by destruct (suppressed e).
Qed.

Lemma moveAPI_eq fn oldUsage newUsage w :
  moveAPI fn oldUsage newUsage w =
  (with_warned (warned w ++ [false]) w,
   Normal (ForwardingFunction
             (mkWarnOnce (length (warned w))
                match given (Some newUsage) with
                | Some newName =>
                  "'" +:+ oldUsage
                  +:+ "' is deprecated and will be removed. Please use '"
                  +:+ newName +:+ "' instead."
                | None =>
                  "'" +:+ oldUsage +:+ "' is deprecated and will be removed."
                end)
             fn)).
Proof. reflexivity. Qed.

(** X4.  Whichever of [removeFunction], [renameFunction] and [moveAPI]
    made it, a wrapper logs its warning once, at its first call made
    while the suppression flag is off; calls made under suppression log
    nothing and do not use up the warning.  Once it has logged, every
    further call, under any flags and any handler, only calls the
    wrapped function with the same [this] and arguments: it throws no
    warning any more. *)
Theorem wrapper_warns_then_is_transparent (fn : HostFn)
    (name oldUsage newUsage : string) (w w0 : World) (wr : FunctionWrapper) :
  removeFunction (Some fn) name w = (w0, Normal wr) \/
  renameFunction fn name w = (w0, Normal wr) \/
  moveAPI fn oldUsage newUsage w = (w0, Normal wr) ->
  let c := wrapper_warn wr in
  wrapper_fn wr = fn /\
  notices w0 = notices w /\
  forall steps,
    let w1 := calls_with (invoke wr) steps w0 in
    notices w1 =
      (notices w ++
       if forallb (fun s => suppressed (fst s)) steps then []
       else [wo_msg c])%list /\
    (forallb (fun s => suppressed (fst s)) steps = false ->
     forall e this args,
       call_function wr this args (enter e w1) =
       (perform (HostCalled (hf_id fn) this args) (enter e w1),
        wrapper_result wr this args)).
Proof.
  intros Hmade.
  assert (Hshape : exists m,
            w0 = with_warned (warned w ++ [false]) w /\
            wrapper_warn wr = mkWarnOnce (length (warned w)) m /\
            wrapper_fn wr = fn).
  { destruct Hmade as [H | [H | H]].
    - injection H as <- <-. by eexists.
    - rewrite renameFunction_eq in H. injection H as <- <-. by eexists.
    - rewrite moveAPI_eq in H. injection H as <- <-. by eexists. }
  destruct Hshape as (m & -> & Hwarn & Hfn).
  cbv zeta. rewrite Hwarn.
  destruct (warnOnceMessage_fresh m w) as (_ & Hc & Hw).
  set (c := mkWarnOnce (length (warned w)) m) in *.
  set (w0 := with_warned (warned w ++ [false]) w) in *.
  split; [exact Hfn|]. split; [reflexivity|].
  intros steps.
  assert (Hlike : forall (b : JsVal * list JsVal) w1,
            True ->
            True /\
            notices (fst (invoke wr b w1))
            = (if true then notices (fst (fire c w1)) else notices w1) /\
            warned (fst (invoke wr b w1))
            = (if true then warned (fst (fire c w1)) else warned w1)).
  { intros b w1 _. split; [done|]. unfold invoke.
    rewrite call_function_cases. cbv zeta. rewrite Hwarn.
    by destruct (fires w1 c && escalates w1). }
  destruct (gated_history c (invoke wr) (fun _ => true) (fun _ => True)
              (fun _ _ _ => Logic.I) Hlike steps w0 Logic.I Hc)
    as (_ & Hlen & Hat & Hn).
  rewrite existsb_can_log_always in Hat, Hn. rewrite Hw in Hat, Hn.
  split.
  - rewrite Hn. simpl.
    by destruct (forallb (fun s => suppressed (fst s)) steps).
  - intros Hsome e this args.
    rewrite call_function_cases. cbv zeta. rewrite Hwarn, Hfn.
    assert (Hquiet : fires (enter e (calls_with (invoke wr) steps w0)) c
                     = false).
    { unfold fires.
      change (warned_at (enter e (calls_with (invoke wr) steps w0)) c)
        with (warned_at (calls_with (invoke wr) steps w0) c).
      by rewrite Hat, Hsome. }
    rewrite Hquiet. simpl. by rewrite fire_silent.
Qed.

(** A wrapper made by [moveAPI], called under suppression and then
    twice under the throw flag. *)
Lemma wrapper_warns_then_is_transparent_witness :
  let msg := "'a.f()' is deprecated and will be removed. Please use 'b.f()' instead." in
  let wr := ForwardingFunction (mkWarnOnce 0 msg) answer in
  let w0 := with_warned [false] empty_world in
  let call := (VObject 3, [VNumber 1]) in
  let steps := [(mkEnv silenced None, call); (mkEnv throwing None, call)] in
  moveAPI answer "a.f()" "b.f()" empty_world = (w0, Normal wr) /\
  notices (calls_with (invoke wr) steps w0) = [msg] /\
  forallb (fun s => suppressed (fst s)) steps = false /\
  snd (call_function wr (VObject 3) [VNumber 1]
         (enter (mkEnv throwing None) (calls_with (invoke wr) steps w0)))
  = Normal (VNumber 42).
Proof.
  intros msg wr w0 call steps.
  assert (Hmade : moveAPI answer "a.f()" "b.f()" empty_world
                  = (w0, Normal wr)) by reflexivity.
  destruct (wrapper_warns_then_is_transparent answer "f" "a.f()" "b.f()"
              empty_world w0 wr (or_intror (or_intror Hmade)))
    as (_ & _ & Hhist).
  destruct (Hhist steps) as (Hn & Hlater).
  split; [exact Hmade|]. split; [exact Hn|]. split; [reflexivity|].
  exact (f_equal snd (Hlater eq_refl (mkEnv throwing None) (VObject 3)
                        [VNumber 1])).
Defined.

(** X5.  [moveAPI] never fails.  The warning of its wrapper is built
    from the two usage strings as they are given; with an empty new
    usage it is the message without a replacement.  A call of the
    wrapper ends as the wrapped function ends on the same [this] and
    arguments, unless the call's warning is turned into a throw, and
    then the function is not called. *)
Theorem moveAPI_forwards (fn : HostFn) (oldUsage newUsage : string)
    (w : World) :
  exists c,
    let wr := ForwardingFunction c fn in
    moveAPI fn oldUsage newUsage w
    = (with_warned (warned w ++ [false]) w, Normal wr) /\
    (newUsage <> EmptyString ->
     wo_msg c =
       "'" +:+ oldUsage +:+ "' is deprecated and will be removed. Please use '"
       +:+ newUsage +:+ "' instead.") /\
    (newUsage = EmptyString ->
     wo_msg c = "'" +:+ oldUsage +:+ "' is deprecated and will be removed.") /\
    forall this args w1,
      let throws := fires w1 c && escalates w1 in
      snd (call_function wr this args w1) =
        (if throws then Throw (Error (wo_msg c))
         else hf_apply fn this args) /\
      effects (fst (call_function wr this args w1)) =
        (effects (fst (fire c w1)) ++
         if throws then [] else [HostCalled (hf_id fn) this args])%list.
Proof.
  rewrite moveAPI_eq.
  set (c := mkWarnOnce (length (warned w)) _).
  exists c. cbv zeta. split; [reflexivity|]. split; [|split].
  - intros Hn. subst c. cbn [wo_msg given]. by destruct newUsage.
  - by intros ->.
  - intros this args w1. rewrite call_forwarding.
    destruct (fires w1 c && escalates w1); simpl; [|done].
    by rewrite app_nil_r.
Qed.

(** A new usage, and the empty one. *)
Lemma moveAPI_forwards_witness :
  (exists c,
     moveAPI answer "a.f()" "b.f()" empty_world
     = (with_warned [false] empty_world, Normal (ForwardingFunction c answer)) /\
     wo_msg c
     = "'a.f()' is deprecated and will be removed. Please use 'b.f()' instead.") /\
  (exists c,
     moveAPI answer "a.f()" EmptyString empty_world
     = (with_warned [false] empty_world, Normal (ForwardingFunction c answer)) /\
     wo_msg c = "'a.f()' is deprecated and will be removed.").
Proof.
  split.
  - destruct (moveAPI_forwards answer "a.f()" "b.f()" empty_world)
      as (c & Hmk & Hnew & _).
    exists c. split; [exact Hmk|]. apply Hnew. discriminate.
  - destruct (moveAPI_forwards answer "a.f()" EmptyString empty_world)
      as (c & Hmk & _ & Hno & _).
    exists c. split; [exact Hmk|]. by apply Hno.
Defined.

(** ** Two closures *)

Lemma fire_other c c' w :
  wo_cell c <> wo_cell c' ->
  warned_at (fst (fire c w)) c' = warned_at w c'.
Proof.
  intros Hne. unfold warned_at. rewrite fire_warned.
  destruct (fires w c); [|done]. by rewrite list_lookup_insert_ne.
Qed.

Section Two.
Context {A B : Type} (c1 c2 : WarnOnce) (msg : string)
        (act : B -> M A) (first : B -> bool).
Hypothesis cells : wo_cell c1 <> wo_cell c2.
Hypothesis msg1 : wo_msg c1 = msg.
Hypothesis msg2 : wo_msg c2 = msg.
Hypothesis act_fire : forall b w,
  notices (fst (act b w))
  = notices (fst (fire (if first b then c1 else c2) w)) /\
  warned (fst (act b w))
  = warned (fst (fire (if first b then c1 else c2) w)).

Lemma two_closures_history steps : forall w,
  wo_cell c1 < length (warned w) -> wo_cell c2 < length (warned w) ->
  notices (calls_with act steps w) =
  (notices w ++
   replicate
     (Nat.b2n (negb (warned_at w c1) && existsb (can_log first) steps) +
      Nat.b2n (negb (warned_at w c2)
               && existsb (can_log (fun b => negb (first b))) steps))
     msg)%list.
Proof.
  induction steps as [|[e b] steps IH]; intros w H1 H2; simpl.
  - rewrite !andb_false_r. simpl. by rewrite app_nil_r.
  - destruct (act_fire b (enter e w)) as (Hn & Hwd).
    set (c := if first b then c1 else c2) in *.
    destruct (fire_frame c (enter e w)) as (_ & _ & _ & _ & Hlen).
    assert (Hlen' : length (warned (fst (act b (enter e w))))
                    = length (warned w)) by (by rewrite Hwd, Hlen).
    rewrite IH by (by rewrite Hlen').
    assert (Hat : forall c', warned_at (fst (act b (enter e w))) c'
                             = warned_at (fst (fire c (enter e w))) c')
      by (intros c'; unfold warned_at; by rewrite Hwd).
    rewrite !Hat, Hn, fire_notices, enter_fires.
    unfold can_log. simpl.
    change (noDeprecation (env_process e)) with (suppressed e).
    set (x1 := existsb _ steps). set (x2 := existsb _ steps).
    subst c. destruct (first b); simpl.
    + rewrite (fire_warned_at c1 (enter e w)) by done.
      rewrite (fire_other c1 c2) by done.
      change (warned_at (enter e w) c1) with (warned_at w c1).
      change (warned_at (enter e w) c2) with (warned_at w c2).
      change (noDeprecation (process (enter e w))) with (suppressed e).
      rewrite msg1.
      destruct (warned_at w c1), (warned_at w c2), (suppressed e), x1, x2;
        simpl; by rewrite ?app_nil_r, <- ?app_assoc.
    + rewrite (fire_warned_at c2 (enter e w)) by done.
      rewrite (fire_other c2 c1) by (by apply not_eq_sym).
      change (warned_at (enter e w) c1) with (warned_at w c1).
      change (warned_at (enter e w) c2) with (warned_at w c2).
      change (noDeprecation (process (enter e w))) with (suppressed e).
      rewrite msg2.
      destruct (warned_at w c1), (warned_at w c2), (suppressed e), x1, x2;
        simpl; by rewrite ?app_nil_r, <- ?app_assoc.
Qed.
End Two.

(** X6.  Wrapping the same function twice gives two wrappers with the
    same message and a one-shot closure each.  Over any history that
    mixes calls of the two, the message is logged once for each wrapper
    that was called while the suppression flag was off: twice when both
    were. *)
Theorem double_wrapping_warns_twice (fn : HostFn) (newName : string)
    (w : World) :
  exists wr1 wr2 w1 w2,
    renameFunction fn newName w = (w1, Normal wr1) /\
    renameFunction fn newName w1 = (w2, Normal wr2) /\
    wo_msg (wrapper_warn wr1) = wo_msg (wrapper_warn wr2) /\
    forall steps : list (Env * (bool * (JsVal * list JsVal))),
      notices
        (calls_with
           (fun s : bool * (JsVal * list JsVal) =>
              invoke (if fst s then wr1 else wr2) (snd s))
           steps w2) =
      (notices w ++
       replicate
         (Nat.b2n (existsb (can_log fst) steps) +
          Nat.b2n (existsb
                     (can_log (fun s : bool * (JsVal * list JsVal) =>
                                 negb (fst s))) steps))
         (wo_msg (wrapper_warn wr1)))%list.
Proof.
  pose (msg := "'" +:+ (hf_name fn +:+ " function")
               +:+ "' is deprecated and will be removed. Please use '"
               +:+ (newName +:+ " function") +:+ "' instead.").
  pose (c1 := mkWarnOnce (length (warned w)) msg).
  pose (w1 := with_warned (warned w ++ [false]) w).
  pose (c2 := mkWarnOnce (length (warned w1)) msg).
  pose (w2 := with_warned (warned w1 ++ [false]) w1).
  exists (ForwardingFunction c1 fn), (ForwardingFunction c2 fn), w1, w2.
  split; [apply renameFunction_eq|]. split; [apply renameFunction_eq|].
  split; [reflexivity|]. intros steps. cbn [wrapper_warn wo_msg c1].
  assert (Hlen : length (warned w2) = S (S (length (warned w))))
    by (simpl; rewrite !length_app; simpl; lia).
  assert (Hcells : wo_cell c1 <> wo_cell c2)
    by (simpl; rewrite length_app; simpl; lia).
  assert (H1 : warned_at w2 c1 = false).
  { unfold warned_at. simpl. rewrite <- app_assoc.
    rewrite lookup_app_r by done. by rewrite Nat.sub_diag. }
  assert (H2 : warned_at w2 c2 = false).
  { unfold warned_at. simpl.
    rewrite lookup_app_r by done. by rewrite Nat.sub_diag. }
  rewrite (two_closures_history c1 c2 msg _ fst Hcells eq_refl eq_refl).
  - by rewrite H1, H2.
  - intros [b call] w'. simpl. destruct b; apply invoke_fire_like.
  - rewrite Hlen. simpl. lia.
  - rewrite Hlen. simpl. rewrite length_app. simpl. lia.
Qed.

(** ** Removed properties, read and written *)



Lemma Set_own_accessor n object name g s v w :
  getOwnPropertyDescriptor (heap w) object name
  = Some (Accessor g (Some s)) ->
  Set_ (S n) object name v w = call_setter (Set_ n) s (VObject object) v w.
Proof.
  unfold getOwnPropertyDescriptor. intros Hown.
  destruct (heap w !! object) as [obj|] eqn:Hobj; [|done].
  cbn [Set_]. by rewrite (find_property_own _ _ _ _ _ Hobj Hown).
Qed.






(** ** Renamed properties, without a migration *)

Lemma find_in_chain_define_other d (h : gmap loc Object) o obj name p other :
  h !! o = Some obj -> other <> name ->
  forall x,
    find_in_chain d
      (<[o := mkObject (proto obj) (<[name := p]> (props obj))]> h) x other
    = find_in_chain d h x other.
Proof.
  intros Hobj Hne. induction d as [|d IH]; intros x; simpl; [done|].
  destruct (decide (x = o)) as [->|Hx].
  - rewrite lookup_insert_eq, Hobj. simpl.
    rewrite lookup_insert_ne by done.
    destruct (props obj !! other); [done|].
    destruct (proto obj); [apply IH|done].
  - rewrite lookup_insert_ne by done.
    destruct (h !! x) as [objx|]; [|done].
    destruct (props objx !! other); [done|].
    destruct (proto objx); [apply IH|done].
Qed.

Lemma find_property_define_other (h : gmap loc Object) o obj name p x other :
  h !! o = Some obj -> other <> name ->
  find_property
    (<[o := mkObject (proto obj) (<[name := p]> (props obj))]> h) x other
  = find_property h x other.
Proof.
  intros Hobj Hne. unfold find_property.
  rewrite map_size_insert_Some by (by rewrite Hobj).
  by apply find_in_chain_define_other.
Qed.

Lemma renameProperty_skip n object oldName newName w obj :
  heap w !! object = Some obj ->
  has_property w object oldName && negb (has_property w object newName)
  = false ->
  let c := mkWarnOnce (length (warned w))
             match given (Some newName) with
             | Some newName =>
               "'" +:+ oldName
               +:+ "' is deprecated and will be removed. Please use '"
               +:+ newName +:+ "' instead."
             | None => "'" +:+ oldName +:+ "' is deprecated and will be removed."
             end in
  renameProperty n object oldName newName w =
  (with_heap
     (<[object :=
          mkObject (proto obj)
            (<[oldName := Accessor (Some (RenamedGet c object newName))
                                   (Some (RenamedSet c object newName))]>
               (props obj))]> (heap w))
     (with_warned (warned w ++ [false]) w),
   Normal object).
Proof.
  intros Hobj Hskip c.
  set (wa := with_warned (warned w ++ [false]) w).
  unfold renameProperty, warnOnce. unfold bind at 1.
  change (warnOnceMessage _ w) with (wa, Normal c). cbv beta iota.
  unfold bind at 1.
  change (has_property wa object oldName) with (has_property w object oldName).
  change (has_property wa object newName) with (has_property w object newName).
  rewrite Hskip.
  by rewrite (defineProperty_eq _ _ _ wa obj) by exact Hobj.
Qed.



(** ** Renamed properties as aliases *)

Lemma Set_plain k o name v w obj :
  heap w !! o = Some obj ->
  plain (find_property (heap w) o name) = true ->
  Set_ (S k) o name v w =
  (with_heap (<[o := mkObject (proto obj) (<[name := Data v]> (props obj))]>
                (heap w)) w,
   Normal tt).
Proof.
  intros Hobj Hplain. apply Set_data; [done|].
  destruct (find_property (heap w) o name) as [[v0|g s]|];
    [right; by eexists|done|by left].
Qed.

Lemma fire_returns c w :
  escalates w = false ->
  snd (fire c w) = Normal tt /\ escalates (fst (fire c w)) = false /\
  heap (fst (fire c w)) = heap w.
Proof.
  intros Hesc. rewrite fire_completion, Hesc, andb_false_r.
  destruct (fire_frame c w) as (Hp & Hh & Hheap & _).
  unfold escalates in *. by rewrite Hp, Hh.
Qed.

Lemma alias_after k c object oldName newName v2 w obj :
  oldName <> newName ->
  heap w !! object = Some obj ->
  props obj !! oldName
  = Some (Accessor (Some (RenamedGet c object newName))
                   (Some (RenamedSet c object newName))) ->
  plain (find_property (heap w) object newName) = true ->
  escalates w = false ->
  snd (Get (S (S k)) object oldName
         (fst (Set_ (S (S k)) object oldName v2 w))) = Normal v2 /\
  snd (Get (S (S k)) object oldName
         (fst (Set_ (S k) object newName v2 w))) = Normal v2 /\
  snd (Get (S k) object newName
         (fst (Set_ (S (S k)) object oldName v2 w))) = Normal v2.
Proof.
  intros Hnames Hobj Hacc Hplain Hesc.
  set (obj2 := mkObject (proto obj) (<[newName := Data v2]> (props obj))).
  assert (Hacc2 : props obj2 !! oldName
                  = Some (Accessor (Some (RenamedGet c object newName))
                                   (Some (RenamedSet c object newName))))
    by (simpl; by rewrite lookup_insert_ne).
  assert (Hnew2 : props obj2 !! newName = Some (Data v2))
    by (simpl; by rewrite lookup_insert_eq).
  (* the write through the old name *)
  destruct (fire_returns c w Hesc) as (Hr & Hesc' & Hheap').
  assert (Hvia_old : Set_ (S (S k)) object oldName v2 w =
                     (with_heap (<[object := obj2]> (heap w)) (fst (fire c w)),
                      Normal tt)).
  { assert (Hown : getOwnPropertyDescriptor (heap w) object oldName
                   = Some (Accessor (Some (RenamedGet c object newName))
                                    (Some (RenamedSet c object newName))))
      by (unfold getOwnPropertyDescriptor; by rewrite Hobj).
    rewrite (Set_own_accessor _ _ _ _ _ _ _ Hown). cbn [call_setter].
    unfold bind. destruct (fire c w) as [wf r]; cbn [fst snd] in *. subst r.
    rewrite (Set_plain k object newName v2 wf obj);
      [by rewrite Hheap'|by rewrite Hheap'|by rewrite Hheap']. }
  assert (Hvia_new : Set_ (S k) object newName v2 w =
                     (with_heap (<[object := obj2]> (heap w)) w, Normal tt))
    by (by apply Set_plain).
  assert (Hread : forall w2,
            heap w2 = <[object := obj2]> (heap w) -> escalates w2 = false ->
            snd (Get (S (S k)) object oldName w2) = Normal v2).
  { intros w2 Hheap2 Hesc2.
    rewrite (renamed_read k c object oldName newName
               (Some (RenamedSet c object newName)) v2 w2 obj2);
      [|by rewrite Hheap2, lookup_insert_eq|exact Hacc2|exact Hnew2].
    simpl. by rewrite Hesc2, andb_false_r. }
  split; [|split].
  - rewrite Hvia_old. by apply Hread.
  - rewrite Hvia_new. by apply Hread.
  - rewrite Hvia_old. cbn [fst].
    rewrite (Get_data k object newName v2); [done|].
    apply (find_property_own _ _ obj2); [by simpl; rewrite lookup_insert_eq|].
    exact Hnew2.
Qed.

(** X10.  Let the old and the new name be different and each be missing
    or a data property of the object, and let [log] not throw (a handler
    is set or the throw flag is off).  Then [renameProperty] returns the
    object, and from then on the two names are aliases: a value written
    through the old name is what the new name holds and what a read of
    the old name gives, and a value written to the new name is what a
    read of the old name gives. *)
Theorem renamed_names_are_aliases (n : nat) (object : loc)
    (oldName newName : string) (w : World) (obj : Object) :
  oldName <> newName ->
  heap w !! object = Some obj ->
  plain (find_property (heap w) object oldName) = true ->
  plain (find_property (heap w) object newName) = true ->
  escalates w = false ->
  let w0 := fst (renameProperty (S n) object oldName newName w) in
  snd (renameProperty (S n) object oldName newName w) = Normal object /\
  forall k w1 v2,
    heap w1 = heap w0 -> escalates w1 = false ->
    snd (Get (S (S k)) object oldName
           (fst (Set_ (S (S k)) object oldName v2 w1))) = Normal v2 /\
    snd (Get (S (S k)) object oldName
           (fst (Set_ (S k) object newName v2 w1))) = Normal v2 /\
    snd (Get (S k) object newName
           (fst (Set_ (S (S k)) object oldName v2 w1))) = Normal v2.
Proof.
  intros Hnames Hobj Hold Hnew Hesc. cbv zeta.
  destruct (find_property (heap w) object oldName) as [[v|? ?]|] eqn:Eold;
    [|done|];
    destruct (find_property (heap w) object newName) as [[v'|? ?]|] eqn:Enew;
    try done.
  2: { (* the value is copied *)
    rewrite (renameProperty_run n object oldName newName v w obj
               Hobj Eold Enew).
    set (c := mkWarnOnce (length (warned w)) _).
    assert (Hesc' : escalates (with_warned (warned w ++ [false]) w) = false)
      by exact Hesc.
    rewrite Hesc', andb_false_r. cbn [fst snd]. split; [reflexivity|].
    intros k w1 v2 Hheap Hesc1.
    eapply (alias_after k c object oldName newName v2 w1); try done.
    - rewrite Hheap. simpl. by rewrite lookup_insert_eq.
    - simpl. by rewrite lookup_insert_eq.
    - erewrite find_property_own;
        [done|rewrite Hheap; simpl; by rewrite lookup_insert_eq|].
      simpl. rewrite lookup_insert_ne by done. by rewrite lookup_insert_eq. }
  all: (* nothing is copied *)
    (assert (Hskip : has_property w object oldName
                     && negb (has_property w object newName) = false)
       by (first [ rewrite (has_property_found w object newName (Data v'))
                     by exact Enew; by rewrite andb_false_r
                 | by rewrite (has_property_missing w object oldName)
                     by exact Eold ]));
    rewrite (renameProperty_skip (S n) object oldName newName w obj
               Hobj Hskip);
    set (c := mkWarnOnce (length (warned w)) _);
    cbn [fst snd]; (split; [reflexivity|]);
    intros k w1 v2 Hheap Hesc1;
    eapply (alias_after k c object oldName newName v2 w1); try done;
    [ rewrite Hheap; simpl; by rewrite lookup_insert_eq
    | simpl; by rewrite lookup_insert_eq
    | rewrite Hheap; simpl;
      rewrite (find_property_define_other _ _ _ _ _ _ _ Hobj)
        by (by apply not_eq_sym);
      by rewrite Enew ].
Qed.

(** The object of [plain_heap], written through ["old"] and through
    ["new"]. *)
Lemma renamed_names_are_aliases_witness :
  let w := with_heap plain_heap empty_world in
  let w0 := fst (renameProperty 1 1 "old" "new" w) in
  plain (find_property (heap w) 1 "old") = true /\
  plain (find_property (heap w) 1 "new") = true /\
  escalates w = false /\
  snd (Get 2 1 "old" (fst (Set_ 2 1 "old" (VNumber 7) w0)))
  = Normal (VNumber 7) /\
  snd (Get 2 1 "old" (fst (Set_ 1 1 "new" (VNumber 8) w0)))
  = Normal (VNumber 8).
Proof.
  intros w w0.
  assert (Hnames : "old" <> "new") by discriminate.
  assert (Hobj : heap w !! 1
                 = Some (mkObject (Some 0) {[ "old" := Data (VNumber 5) ]}))
    by reflexivity.
  destruct (renamed_names_are_aliases 0 1 "old" "new" w _ Hnames Hobj
              eq_refl eq_refl eq_refl) as (_ & Halias).
  destruct (Halias 0 w0 (VNumber 7) eq_refl eq_refl) as (H7 & _ & _).
  destruct (Halias 0 w0 (VNumber 8) eq_refl eq_refl) as (_ & H8 & _).
  split; [reflexivity|]. split; [reflexivity|]. split; [reflexivity|].
  split; [exact H7|exact H8].
Defined.

(** ** Renamed events, seen from the old listeners *)

Lemma call_host_listener em f emitter args v w :
  hf_apply f (VObject emitter) args = Normal v ->
  call_listener em (HostListener f) emitter args w
  = (perform (HostCalled (hf_id f) (VObject emitter) args) w, Normal tt).
Proof. intros Hv. unfold call_listener, bind, host_call. by rewrite Hv. Qed.

Lemma call_listeners_host_run em fs emitter args : forall w,
  Forall (fun f => exists v, hf_apply f (VObject emitter) args = Normal v) fs ->
  snd (call_listeners em (map HostListener fs) emitter args w) = Normal tt /\
  effects (fst (call_listeners em (map HostListener fs) emitter args w))
  = (effects w
     ++ map (fun f => HostCalled (hf_id f) (VObject emitter) args) fs)%list.
Proof.
  induction fs as [|f fs IH]; intros w Hok.
  - simpl. by rewrite app_nil_r.
  - inversion Hok as [|? ? [v Hv] Hrest]; subst.
    cbn [map call_listeners]. unfold bind.
    rewrite (call_host_listener em f emitter args v w Hv).
    destruct (IH (perform (HostCalled (hf_id f) (VObject emitter) args) w)
                Hrest) as (Hr & He).
    split; [exact Hr|]. rewrite He. simpl. by rewrite <- app_assoc.
Qed.

Lemma bind_ret_normal {A B} (m : M A) (b : B) a w :
  snd (m w) = Normal a -> snd ((m ;;; ret b) w) = Normal b.
Proof. unfold bind, ret. destruct (m w) as [w' r]. simpl. by intros ->. Qed.

Lemma emit_host_run n emitter name args fs w :
  listeners_of w emitter name = map HostListener fs ->
  Forall (fun f => exists v, hf_apply f (VObject emitter) args = Normal v) fs ->
  (exists b, snd (emit (S n) emitter name args w) = Normal b) /\
  effects (fst (emit (S n) emitter name args w))
  = (effects w
     ++ map (fun f => HostCalled (hf_id f) (VObject emitter) args) fs)%list.
Proof.
  intros Hls Hok. cbn [emit]. rewrite Hls.
  destruct (call_listeners_host_run (emit n) fs emitter args w Hok)
    as (Hr & He).
  split.
  - eexists. by apply (bind_ret_normal _ _ tt).
  - by rewrite bind_ret_fst.
Qed.

(** X11.  When the listener registered by [event] re-emits, the
    ordinary listeners under the old name are called in the order of
    their registration, each with the emitter as [this] and with what
    the transformer made of the arguments, and - if they all return -
    the listener returns too. *)
Theorem event_old_listeners_receive (emitter : loc)
    (oldName newName : string)
    (transformer : option (list JsVal -> option (list JsVal))) (w : World) :
  exists c,
    let l := DeprecatedEvent c oldName
               (default (fun args => Some args) transformer) in
    let w0 := fst (event emitter oldName newName transformer w) in
    listeners_of w0 emitter newName
    = (listeners_of w emitter newName ++ [l])%list /\
    forall n args transformedArgs olds w1,
      olds <> [] ->
      listeners_of w1 emitter oldName = map HostListener olds ->
      default (fun args => Some args) transformer args
      = Some transformedArgs ->
      Forall (fun f => exists v,
                hf_apply f (VObject emitter) transformedArgs = Normal v)
             olds ->
      fires w1 c && escalates w1 = false ->
      snd (react (S n) l emitter args w1) = Normal tt /\
      effects (fst (react (S n) l emitter args w1)) =
      (effects (fst (fire c w1))
       ++ map (fun f => HostCalled (hf_id f) (VObject emitter) transformedArgs)
              olds)%list.
Proof.
  rewrite event_eq. cbv zeta.
  set (c := mkWarnOnce (length (warned w)) _).
  exists c. cbn [fst]. split.
  { unfold listeners_of at 1. simpl. by rewrite lookup_insert_eq. }
  intros n args targs olds w1 Hne Hls Htr Hok Hno.
  rewrite react_cases, Hno, Htr.
  unfold listenerCount. rewrite Hls, length_map.
  destruct olds as [|f olds]; [done|]. simpl (_ =? _)%nat. cbv iota.
  assert (Hls' : listeners_of (fst (fire c w1)) emitter oldName
                 = map HostListener (f :: olds)).
  { unfold listeners_of.
    destruct (fire_frame c w1) as (_ & _ & _ & -> & _). exact Hls. }
  destruct (emit_host_run n emitter oldName targs (f :: olds)
              (fst (fire c w1)) Hls' Hok) as ([b Hr] & He).
  split.
  - by apply (bind_ret_normal _ _ b).
  - by rewrite bind_ret_fst.
Qed.

(** A transformer that passes on the first argument only. *)
Lemma event_old_listeners_receive_witness :
  let first_only := fun args : list JsVal => Some (take 1 args) in
  let l := DeprecatedEvent
             (mkWarnOnce 0
                "'old event' is deprecated and will be removed. Please use 'new event' instead.")
             "old" first_only in
  let w0 := fst (event 0 "old" "new" (Some first_only) emitter_world) in
  listeners_of w0 0 "old" = map HostListener [onOld] /\
  effects (fst (react 1 l 0 [VNumber 1; VNumber 2] w0)) =
  [ConsoleWarn
     "(electron) 'old event' is deprecated and will be removed. Please use 'new event' instead.";
   HostCalled 5 (VObject 0) [VNumber 1]].
Proof.
  intros first_only l w0.
  destruct (event_old_listeners_receive 0 "old" "new" (Some first_only)
              emitter_world) as (c & Hl & Hrun).
  cbv zeta in Hl, Hrun.
  assert (Hc : c = mkWarnOnce 0
                     "'old event' is deprecated and will be removed. Please use 'new event' instead.").
  { vm_compute in Hl. by injection Hl as <-. }
  subst c.
  assert (Hls : listeners_of w0 0 "old" = map HostListener [onOld])
    by reflexivity.
  assert (Hok : Forall (fun f => exists v,
                          hf_apply f (VObject 0) [VNumber 1] = Normal v)
                       [onOld])
    by (repeat constructor; by exists VUndefined).
  destruct (Hrun 0 [VNumber 1; VNumber 2] [VNumber 1] [onOld] w0
              ltac:(discriminate) Hls eq_refl Hok eq_refl) as (_ & He).
  split; [exact Hls|exact He].
Defined.

(** ** An event renamed to itself *)

(** X12.  [event] with the old name equal to the new name registers a
    listener that counts itself as a listener of the old name: at every
    emission it emits the same name again.  On an emitter with no other
    listener under that name, and with [log] not throwing, an emission
    never returns, whatever depth it is given. *)
Theorem event_renamed_to_itself_never_returns (emitter : loc) (name : string)
    (w : World) :
  listeners_of w emitter name = [] ->
  let w0 := fst (event emitter name name None w) in
  forall n args w1,
    listeners w1 = listeners w0 -> escalates w1 = false ->
    snd (emit n emitter name args w1) = Exhausted.
Proof.
  intros Hnone. rewrite event_eq. cbv zeta. cbn [fst].
  set (c := mkWarnOnce (length (warned w)) _).
  set (l := DeprecatedEvent c name _).
  set (ls := <[(emitter, name) := _]> (listeners w)).
  assert (Hl : forall w1, listeners w1 = ls -> listeners_of w1 emitter name = [l]).
  { intros w1 Hw1. unfold listeners_of. rewrite Hw1. subst ls.
    rewrite lookup_insert_eq. simpl. by rewrite Hnone. }
  induction n as [|n IH]; intros args w1 Hw1 Hesc; [done|].
  cbn [emit]. rewrite (Hl w1 Hw1). cbn [call_listeners].
  fold (react n l emitter args).
  assert (Hreact : snd (react n l emitter args w1) = Exhausted).
  { unfold l. rewrite react_cases. unfold listenerCount.
    rewrite (Hl w1 Hw1). simpl (_ =? _)%nat. cbv iota.
    rewrite Hesc, andb_false_r. simpl.
    destruct (fire_frame c w1) as (Hp & Hh & _ & Hlis & _).
    assert (Hrec : snd (emit n emitter name args (fst (fire c w1)))
                   = Exhausted).
    { apply IH; [by rewrite Hlis|].
      unfold escalates in *. by rewrite Hp, Hh. }
    unfold bind.
    destruct (emit n emitter name args (fst (fire c w1))) as [w2 r].
    simpl in Hrec. by subst r. }
  unfold bind.
  destruct (react n l emitter args w1) as [w2 r]. simpl in Hreact. by subst r.
Qed.

(** A fresh emitter, at two depths. *)
Lemma event_renamed_to_itself_never_returns_witness :
  let w0 := fst (event 0 "tick" "tick" None empty_world) in
  listeners_of empty_world 0 "tick" = [] /\
  snd (emit 3 0 "tick" [] w0) = Exhausted /\
  snd (emit 9 0 "tick" [VNumber 1] w0) = Exhausted.
Proof.
  intros w0.
  pose proof (event_renamed_to_itself_never_returns 0 "tick" empty_world
                eq_refl) as H.
  split; [reflexivity|].
  split; [exact (H 3 [] w0 eq_refl eq_refl)
         |exact (H 9 [VNumber 1] w0 eq_refl eq_refl)].
Defined.
